(** * Solana Pay UI: retry scheduler, payment session and transaction reconciler

    A shallow embedding of the two React context providers of the point-of-sale
    client:

    - [TransactionsProvider] with its helper [exponentialBackoff]
      (the reconciler: signature discovery, detail resolution);
    - [PaymentProvider] (the payment session and its watcher).

    Asynchronous code is embedded with explicit state passing.  An [await] on
    the ledger is a read of an oracle that says, for each call in turn, whether
    the promise was rejected or what it resolved to, and whether the effect's
    cleanup ran while the call was pending. *)

From Stdlib Require Import ZArith QArith List String Bool Lia Floats.
Import ListNotations.
Open Scope Z_scope.

Set Implicit Arguments.

(** ** The retry combinator *)

Module Backoff.

Section Scheduler.
(** The world the combinator runs in. *)
Variable W : Type.
(** [delay ms]: the suspension [await delay(ms)]. *)
Variable delay : Z -> W -> W.
(** [fn]: one invocation of the action; [true] when the promise resolved,
    [false] when it was rejected (the [catch] branch). *)
Variable fn : W -> bool * W.

(** The [for] loop of [exponentialBackoff], entered at loop index [i].
    [fuel] bounds the number of times the loop body is re-entered;
    [None] is "out of fuel", which [attempts_fuel] rules out. *)
Fixpoint attempts (fuel : nat) (i maxRetries initialDelay : Z) (w : W)
  : option (bool * W) :=
  if i <? maxRetries then
    let (ok, w1) := fn w in
    if ok then Some (true, w1)
    else if i =? maxRetries - 1 then Some (false, w1)
    else
      match fuel with
      | O => None
      | S fuel' =>
          attempts fuel' (i + 1) maxRetries initialDelay
                   (delay (initialDelay * 2 ^ i) w1)
      end
  else Some (false, w).

Definition exponentialBackoff (maxRetries initialDelay : Z) (w : W)
  : option (bool * W) :=
  attempts (Z.to_nat maxRetries) 0 maxRetries initialDelay w.

End Scheduler.

(** *** An instrumented world: what one call of the combinator does

    The action is an oracle [nat -> bool]: the outcome of its [n]-th
    invocation.  The world counts the invocations and records them, and the
    sleeps, in the order they happen. *)

Inductive event :=
| Invoke (ok : bool)
| Sleep (ms : Z).

Record probe := { served : nat; trace : list event }.

Definition probe_delay (ms : Z) (p : probe) : probe :=
  {| served := served p; trace := trace p ++ [Sleep ms] |}.

Definition probe_fn (action : nat -> bool) (p : probe) : bool * probe :=
  let ok := action (served p) in
  (ok, {| served := S (served p); trace := trace p ++ [Invoke ok] |}).

Definition blank : probe := {| served := O; trace := [] |}.

Definition observe (action : nat -> bool) (maxRetries initialDelay : Z)
  : option (bool * probe) :=
  exponentialBackoff probe_delay (probe_fn action) maxRetries initialDelay blank.

Definition invocations (t : list event) : nat :=
  List.length (filter (fun e => match e with Invoke _ => true | _ => false end) t).

Definition sleeps (t : list event) : list Z :=
  flat_map (fun e => match e with Sleep ms => [ms] | _ => [] end) t.

(** The contract in the specification's words: [k] failed invocations, each
    followed by the sleep [initialDelay * 2^j], [j] counting from [from]. *)
Fixpoint failed_rounds (initialDelay : Z) (from : Z) (k : nat) : list event :=
  match k with
  | O => []
  | S k' =>
      Invoke false :: Sleep (initialDelay * 2 ^ from)
        :: failed_rounds initialDelay (from + 1) k'
  end.

(** Success at the invocation of index [k]. *)
Definition trace_success (initialDelay : Z) (k : nat) : list event :=
  failed_rounds initialDelay 0 k ++ [Invoke true].

(** [n] invocations, all failed. *)
Definition trace_failure (initialDelay : Z) (n : nat) : list event :=
  match n with
  | O => []
  | S m => failed_rounds initialDelay 0 m ++ [Invoke false]
  end.

(** Number of failed invocations before the first successful one, among the
    [n] invocations that start at number [start]; [None] when all [n] fail. *)
Fixpoint failures_before (action : nat -> bool) (start n : nat) : option nat :=
  match n with
  | O => None
  | S n' =>
      if action start then Some O
      else option_map S (failures_before action (S start) n')
  end.

(** What the specification promises for a call entered at loop index [i] with
    [r] loop indices left. *)
Definition promised (action : nat -> bool) (initialDelay i : Z) (r : nat)
  (p : probe) : bool * probe :=
  match failures_before action (served p) r with
  | Some k =>
      (true,
       {| served := served p + S k;
          trace := trace p ++ failed_rounds initialDelay i k ++ [Invoke true] |})
  | None =>
      (false,
       {| served := served p + r;
          trace := trace p ++
            match r with
            | O => []
            | S m => failed_rounds initialDelay i m ++ [Invoke false]
            end |})
  end.

End Backoff.

(** ** Decimal numbers of bignumber.js

    Only what the providers use: construction from a ledger number or absent
    value, comparison [lt], [minus], division by a positive constant and the
    sign test.  A value is not-a-number, an infinity or a rational. *)

Module BigNum.

Inductive BigNumber :=
| NaN
| Infinity (negative : bool)
| Finite (q : Q).

(** [new BigNumber(n)] for an integer [n], [new BigNumber(undefined)] being
    [NaN].  bignumber.js reads a number through its decimal text, which is
    the integer itself for a safe integer ([Js.isSafeInteger], magnitude at
    most [2^53 - 1]); beyond that the text is the shortest one that reads
    back as the same double, and this definition is not meant for it. *)
Definition ofNumber (n : option Z) : BigNumber :=
  match n with
  | Some z => Finite (inject_Z z)
  | None => NaN
  end.

Definition Qlt_bool (a b : Q) : bool := negb (Qle_bool b a).

(** [x.lt(y)]: a comparison with [NaN] is never true. *)
Definition lt (x y : BigNumber) : bool :=
  match x, y with
  | NaN, _ | _, NaN => false
  | Infinity n1, Infinity n2 => n1 && negb n2
  | Infinity n, Finite _ => n
  | Finite _, Infinity n => negb n
  | Finite a, Finite b => Qlt_bool a b
  end.

(** [x.minus(y)]. *)
Definition minus (x y : BigNumber) : BigNumber :=
  match x, y with
  | NaN, _ | _, NaN => NaN
  | Infinity n1, Infinity n2 => if Bool.eqb n1 n2 then NaN else Infinity n1
  | Infinity n, Finite _ => Infinity n
  | Finite _, Infinity n => Infinity (negb n)
  | Finite a, Finite b => Finite (Qred (a - b))
  end.

(** [x.div(d)] for a positive integer constant [d]; exact, which is what
    bignumber.js computes when the quotient has at most twenty decimals, as
    an integer divided by a power of ten below [10^20] has. *)
Definition div (x : BigNumber) (d : positive) : BigNumber :=
  match x with
  | Finite q => Finite (Qred (q / inject_Z (Z.pos d)))
  | other => other
  end.



End BigNum.

(** ** Ledger data, as the RPC client types it *)

Module Rpc.

(** A public key is identified with its base58 text, so [toBase58] is the
    identity and [pubkey.equals] is string equality. *)
Definition PublicKey := string.
Definition toBase58 (k : PublicKey) : string := k.
Definition TransactionSignature := string.

Inductive TransactionConfirmationStatus := processed | confirmed | finalized.

Record SignatureStatus := {
  confirmationStatus : option TransactionConfirmationStatus;
  confirmations : option Z
}.

Record ConfirmedSignatureInfo := { signature : TransactionSignature }.

(** [instruction.parsed.info] and [instruction.parsed] are untyped in the
    client; the fields the providers read may each be absent. *)
Record ParsedInfo := {
  destination : option string;
  source : option string
}.

Record Parsed := {
  type : option string;
  info : option ParsedInfo
}.

(** Only a parsed instruction has the [program] property. *)
Inductive Instruction :=
| ParsedInstruction (program : string) (parsed : option Parsed)
| PartiallyDecodedInstruction.

Record ParsedMessageAccount := { pubkey : PublicKey }.

Record TokenAmount := { uiAmountString : option string }.

Record TokenBalance := {
  accountIndex : Z;
  uiTokenAmount : TokenAmount
}.

Record ParsedTransactionMeta := {
  err : option string;
  preBalances : list Z;
  postBalances : list Z;
  preTokenBalances : option (list TokenBalance);
  postTokenBalances : option (list TokenBalance)
}.

Record ParsedMessage := {
  accountKeys : list ParsedMessageAccount;
  instructions : list Instruction
}.

Record ParsedTransaction := { message : ParsedMessage }.

Record ParsedTransactionWithMeta := {
  blockTime : option Z;
  meta : option ParsedTransactionMeta;
  transaction : ParsedTransaction
}.

(** [LAMPORTS_PER_SOL] of the RPC client library. *)
Definition LAMPORTS_PER_SOL : positive := 1000000000.

End Rpc.

(** ** JavaScript idioms used by the providers *)

Module Js.

(** [xs[i]] for a natural index: [None] is [undefined]. *)
Definition index {A} (xs : list A) (i : Z) : option A :=
  if i <? 0 then None else nth_error xs (Z.to_nat i).

(** [xs[i]] for an array of nullable entries, [null] and [undefined] both
    read as absent. *)
Definition indexNullable {A} (xs : list (option A)) (i : Z) : option A :=
  match index xs i with
  | Some (Some a) => Some a
  | _ => None
  end.

(** [xs.findIndex(f)], [-1] when no element satisfies [f]. *)
Fixpoint findIndexFrom {A} (f : A -> bool) (at_ : Z) (xs : list A) : Z :=
  match xs with
  | [] => -1
  | x :: rest => if f x then at_ else findIndexFrom f (at_ + 1) rest
  end.

Definition findIndex {A} (f : A -> bool) (xs : list A) : Z :=
  findIndexFrom f 0 xs.

(** A string that is present and not empty (the truthy strings). *)
Definition truthyString (s : option string) : option string :=
  match s with
  | Some str => if String.eqb str "" then None else Some str
  | None => None
  end.

(** A number that is present and not zero (the truthy numbers). *)
Definition truthyNumber (n : option Z) : option Z :=
  match n with
  | Some z => if z =? 0 then None else Some z
  | None => None
  end.

(** [Number.MAX_SAFE_INTEGER] and [Number.isSafeInteger] on integers. *)
Definition MAX_SAFE_INTEGER : Z := 2 ^ 53 - 1.

Definition isSafeInteger (z : Z) : Prop :=
  - MAX_SAFE_INTEGER <= z <= MAX_SAFE_INTEGER.

(** [n || 0]. *)
Definition orZero (n : option Z) : Z :=
  match truthyNumber n with
  | Some z => z
  | None => 0
  end.

(** [a === b] where [a] may be [undefined] and [b] is a string. *)
Definition strictEq (a : option string) (b : string) : bool :=
  match a with
  | Some s => String.eqb s b
  | None => false
  end.

End Js.

(** ** The transaction reconciler ([TransactionsProvider]) *)

Module Reconciler.
Import BigNum Rpc Js.

(** What the callback of [signatures.map] does for one signature: it returns
    a record, returns [undefined] (the entry is then filtered out), or an
    exception escapes it. *)
Inductive outcome (A : Type) :=
| Emit (a : A)
| Skip
| Throw.
Arguments Emit {A} a.
Arguments Skip {A}.
Arguments Throw {A}.

Definition bind {A B} (o : outcome A) (k : A -> outcome B) : outcome B :=
  match o with
  | Emit a => k a
  | Skip => Skip
  | Throw => Throw
  end.

Notation "x <- e ;; k" := (bind e (fun x => k))
  (at level 61, e at next level, right associativity).
Notation "e ;;; k" := (bind e (fun _ => k))
  (at level 61, right associativity).

(** [if (!c) return;] *)
Definition require (c : bool) : outcome unit := if c then Emit tt else Skip.

(** [if (!x) return;] for a value whose absence is its only falsy form. *)
Definition present {A} (x : option A) : outcome A :=
  match x with
  | Some a => Emit a
  | None => Skip
  end.

(** A property read on a value that may be [undefined]: a [TypeError]. *)
Definition deref {A} (x : option A) : outcome A :=
  match x with
  | Some a => Emit a
  | None => Throw
  end.

(** The published record.  [amount] holds the decimal number whose text
    ([toString]) the provider stores. *)
Record Transaction := {
  signature : TransactionSignature;
  amount : BigNumber;
  timestamp : Z;
  error : option string;
  status : TransactionConfirmationStatus;
  confirmations : Z
}.

Definition isFinalized (s : TransactionConfirmationStatus) : bool :=
  match s with
  | finalized => true
  | _ => false
  end.

Section Extraction.
(** Configuration captured by the effect. *)
Variable recipient : PublicKey.
Variable associatedToken : option PublicKey.
(** [MAX_CONFIRMATIONS] of [utils/constants], a constant of the client that
    is configured elsewhere. *)
Variable MAX_CONFIRMATIONS : Z.
(** [new BigNumber(text)] of bignumber.js. *)
Variable bigNumberOfString : string -> BigNumber.


(** The display balance of a token account: the entry of [balances] whose
    [accountIndex] matches, which must carry a non-empty [uiAmountString]. *)
Definition tokenAmountString (balances : option (list TokenBalance))
  (idx : Z) : outcome string :=
  match balances with
  | None => Skip
  | Some l =>
      match find (fun x => Rpc.accountIndex x =? idx) l with
      | None => Skip
      | Some b => present (truthyString (uiAmountString (uiTokenAmount b)))
      end
  end.

(** The two branches on the payment mode: [(preAmount, postAmount)]. *)
Definition balances (tx : ParsedTransactionWithMeta) (m : ParsedTransactionMeta)
  (program : string) (type : option string) (info : option ParsedInfo)
  : outcome (BigNumber * BigNumber) :=
  match associatedToken with
  | None =>
      require (String.eqb program "system" && strictEq type "transfer") ;;;
      require (strictEq (match info with
                         | Some i => destination i
                         | None => None
                         end) (toBase58 recipient)) ;;;
      i <- deref info ;;
      require (negb (strictEq (source i) (toBase58 recipient))) ;;;
      let accountIndex :=
        findIndex (fun k => String.eqb (pubkey k) recipient)
                  (accountKeys (message (transaction tx))) in
      require (negb (accountIndex =? -1)) ;;;
      let preBalance := index (preBalances m) accountIndex in
      let postBalance := index (postBalances m) accountIndex in
      Emit (div (ofNumber preBalance) LAMPORTS_PER_SOL,
            div (ofNumber postBalance) LAMPORTS_PER_SOL)
  | Some ata =>
      require (String.eqb program "spl-token" &&
               (strictEq type "transfer" || strictEq type "transferChecked")) ;;;
      require (strictEq (match info with
                         | Some i => destination i
                         | None => None
                         end) (toBase58 ata)) ;;;
      i <- deref info ;;
      require (negb (strictEq (source i) (toBase58 ata))) ;;;
      let accountIndex :=
        findIndex (fun k => String.eqb (pubkey k) ata)
                  (accountKeys (message (transaction tx))) in
      require (negb (accountIndex =? -1)) ;;;
      preBalance <- tokenAmountString (preTokenBalances m) accountIndex ;;
      postBalance <- tokenAmountString (postTokenBalances m) accountIndex ;;
      Emit (bigNumberOfString preBalance, bigNumberOfString postBalance)
  end.

(** The callback of [signatures.map]. *)
Definition extract
  (parsedTransactions : list (option ParsedTransactionWithMeta))
  (signatureStatuses : list (option SignatureStatus))
  (signature : TransactionSignature) (signatureIndex : Z)
  : outcome Transaction :=
  parsedTransaction <- present (indexNullable parsedTransactions signatureIndex) ;;
  m <- present (meta parsedTransaction) ;;
  signatureStatus <- present (indexNullable signatureStatuses signatureIndex) ;;
  let error := err m in
  timestamp <- present (truthyNumber (blockTime parsedTransaction)) ;;
  status <- present (confirmationStatus signatureStatus) ;;
  match instructions (message (transaction parsedTransaction)) with
  | [instruction] =>
      match instruction with
      | PartiallyDecodedInstruction => Skip
      | ParsedInstruction program parsed =>
          let type := match parsed with
                      | Some p => Rpc.type p
                      | None => None
                      end in
          p <- deref parsed ;;
          let info := Rpc.info p in
          amounts <- balances parsedTransaction m program type info ;;
          let (preAmount, postAmount) := amounts in
          require (negb (lt postAmount preAmount)) ;;;
          let amount := minus postAmount preAmount in
          let confirmations :=
            if isFinalized status then MAX_CONFIRMATIONS
            else orZero (Rpc.confirmations signatureStatus) in
          Emit {| signature := signature;
                  amount := amount;
                  timestamp := timestamp;
                  error := error;
                  status := status;
                  confirmations := confirmations |}
      end
  | _ => Skip
  end.

(** [signatures.map(callback)], the index counting from [at_]. *)
Fixpoint mapSignatures
  (parsedTransactions : list (option ParsedTransactionWithMeta))
  (signatureStatuses : list (option SignatureStatus))
  (at_ : Z) (signatures : list TransactionSignature)
  : list (outcome Transaction) :=
  match signatures with
  | [] => []
  | s :: rest =>
      extract parsedTransactions signatureStatuses s at_
        :: mapSignatures parsedTransactions signatureStatuses (at_ + 1) rest
  end.

(** [.filter(transaction => !!transaction)] over the mapped array; [None]
    when an exception escaped the mapping. *)
Fixpoint collect (mapped : list (outcome Transaction))
  : option (list Transaction) :=
  match mapped with
  | [] => Some []
  | Throw :: _ => None
  | Skip :: rest => collect rest
  | Emit t :: rest => option_map (cons t) (collect rest)
  end.

Definition reconcile
  (signatures : list TransactionSignature)
  (parsedTransactions : list (option ParsedTransactionWithMeta))
  (signatureStatuses : list (option SignatureStatus))
  : option (list Transaction) :=
  collect (mapSignatures parsedTransactions signatureStatuses 0 signatures).

End Extraction.

(** *** The polling loops

    One loop: the variables of one effect's closure ([changed],
    [currentDelay]), the effects it has had so far, in order ([log]), and
    the provider's state as the loop's own writes leave it ([ui]).  The
    signature list has one live writer (signature discovery) and the
    transaction list has one (detail resolution), so for these [ui] is the
    provider's state; [loading] is one flag that both stages write, so its
    value in the provider is the last write of either loop, and what a loop
    does to it is read off its [log].  [calls] numbers the replies the loop
    has awaited: one per attempt (an attempt of detail resolution awaits the
    two requests of its [Promise.all] together). *)

Inductive effect :=
| SetLoading (b : bool)
| SetSignatures (l : list TransactionSignature)
| SetTransactions (l : list Transaction)
| Delay (ms : Z)
| SetTimeout (ms : Z).

Record provider := {
  signatures : list TransactionSignature;
  transactions : list Transaction;
  loading : bool
}.

Record loop := {
  ui : provider;
  changed : bool;
  currentDelay : Z;
  calls : nat;
  log : list effect
}.

(** The answer to one awaited ledger call: whether the effect's cleanup ran
    while the call was pending, and the value the promise resolved to
    ([None] when it was rejected). *)
Record reply (A : Type) := {
  cancelled : bool;
  result : option A
}.

Definition setLoading (b : bool) (w : loop) : loop :=
  {| ui := {| signatures := signatures (ui w);
              transactions := transactions (ui w);
              loading := b |};
     changed := changed w;
     currentDelay := currentDelay w;
     calls := calls w;
     log := log w ++ [SetLoading b] |}.

Definition setSignatures
  (f : list TransactionSignature -> list TransactionSignature) (w : loop)
  : loop :=
  let next := f (signatures (ui w)) in
  {| ui := {| signatures := next;
              transactions := transactions (ui w);
              loading := loading (ui w) |};
     changed := changed w;
     currentDelay := currentDelay w;
     calls := calls w;
     log := log w ++ [SetSignatures next] |}.

Definition setTransactions (l : list Transaction) (w : loop) : loop :=
  {| ui := {| signatures := signatures (ui w);
              transactions := l;
              loading := loading (ui w) |};
     changed := changed w;
     currentDelay := currentDelay w;
     calls := calls w;
     log := log w ++ [SetTransactions l] |}.

Definition setChanged (w : loop) : loop :=
  {| ui := ui w;
     changed := true;
     currentDelay := currentDelay w;
     calls := calls w;
     log := log w |}.

Definition setCurrentDelay (ms : Z) (w : loop) : loop :=
  {| ui := ui w;
     changed := changed w;
     currentDelay := ms;
     calls := calls w;
     log := log w |}.

(** [await delay(ms)] *)
Definition delay (ms : Z) (w : loop) : loop :=
  {| ui := ui w;
     changed := changed w;
     currentDelay := currentDelay w;
     calls := calls w;
     log := log w ++ [Delay ms] |}.

(** [setTimeout(run, ms)] *)
Definition setTimeout (ms : Z) (w : loop) : loop :=
  {| ui := ui w;
     changed := changed w;
     currentDelay := currentDelay w;
     calls := calls w;
     log := log w ++ [SetTimeout ms] |}.

(** An awaited ledger call: the loop resumes with the next call number and,
    when the cleanup ran meanwhile, with the cleanup's writes done. *)
Definition await {A} (ledger : nat -> reply A) (cleanup : loop -> loop)
  (w : loop) : option A * loop :=
  let r := ledger (calls w) in
  let w1 := if cancelled r then cleanup w else w in
  (result r,
   {| ui := ui w1;
      changed := changed w1;
      currentDelay := currentDelay w1;
      calls := S (calls w1);
      log := log w1 |}).

Section Loops.
Variable recipient : PublicKey.
Variable associatedToken : option PublicKey.
Variable MAX_CONFIRMATIONS : Z.
Variable bigNumberOfString : string -> BigNumber.
(** [arraysEqual] of [utils/arraysEqual]. *)
Variable arraysEqual :
  list TransactionSignature -> list TransactionSignature -> bool.

(** The body of [run], which the two polling effects share word for word:
    one call of [exponentialBackoff] with five attempts, the update of
    [currentDelay], and the timer for the next poll. *)
Definition run (action : loop -> bool * loop) (w : loop) : option loop :=
  match Backoff.exponentialBackoff delay action 5 (currentDelay w) w with
  | None => None
  | Some (success, w1) =>
      let w2 :=
        if success then setCurrentDelay 1000 w1
        else setCurrentDelay (Z.min (currentDelay w1 * 2) 30000) w1 in
      Some (if changed w2 then w2 else setTimeout (currentDelay w2) w2)
  end.

(** [n] polls in a row, each started by the timer of the one before. *)
Fixpoint polls (action : loop -> bool * loop) (n : nat) (w : loop)
  : option loop :=
  match n with
  | O => Some w
  | S n' =>
      match run action w with
      | None => None
      | Some w1 => if changed w1 then Some w1 else polls action n' w1
      end
  end.

(** The closure of an effect at its start. *)
Definition start (p : provider) : loop :=
  {| ui := p; changed := false; currentDelay := 1000; calls := O; log := [] |}.

(** The detail-resolution effect starts no loop for an empty signature
    list. *)
Definition startB (p : provider) : option loop :=
  match signatures p with
  | [] => None
  | _ :: _ => Some (start p)
  end.

(** Stage A: signature discovery. *)
Definition cleanupA (w : loop) : loop :=
  setSignatures (fun _ => []) (setChanged w).

Definition actionA (ledger : nat -> reply (list ConfirmedSignatureInfo))
  (w : loop) : bool * loop :=
  let w1 := setLoading true w in
  let (answer, w2) := await ledger cleanupA w1 in
  match answer with
  | None => (false, w2)
  | Some confirmedSignatureInfos =>
      if changed w2 then (true, w2)
      else
        let w3 :=
          setSignatures
            (fun prevSignatures =>
               let nextSignatures :=
                 map Rpc.signature confirmedSignatureInfos in
               if arraysEqual prevSignatures nextSignatures
               then prevSignatures else nextSignatures) w2 in
        (true, setLoading false w3)
  end.

Definition runA ledger := run (actionA ledger).

(** Stage B: detail resolution, for the signature list [sigs] the effect
    captured. *)
Definition cleanupB (w : loop) : loop := setChanged w.

Definition actionB (sigs : list TransactionSignature)
  (ledger : nat -> reply (list (option ParsedTransactionWithMeta)
                          * list (option SignatureStatus)))
  (w : loop) : bool * loop :=
  let w1 := setLoading true w in
  let (answer, w2) := await ledger cleanupB w1 in
  match answer with
  | None => (false, w2)
  | Some (parsedTransactions, signatureStatuses) =>
      if changed w2 then (true, w2)
      else
        match reconcile recipient associatedToken MAX_CONFIRMATIONS
                        bigNumberOfString sigs parsedTransactions
                        signatureStatuses with
        | None => (false, w2)
        | Some l => (true, setLoading false (setTransactions l w2))
        end
  end.

Definition runB sigs ledger := run (actionB sigs ledger).

End Loops.

(** The writes to [loading] among a loop's effects, in order. *)
Definition loadingWrites (l : list effect) : list bool :=
  flat_map (fun e => match e with SetLoading b => [b] | _ => [] end) l.



(** The timers a loop has set, in order. *)
Definition timeouts (l : list effect) : list Z :=
  flat_map (fun e => match e with SetTimeout ms => [ms] | _ => [] end) l.

(** The inner sleeps of a loop, in order. *)
Definition delays (l : list effect) : list Z :=
  flat_map (fun e => match e with Delay ms => [ms] | _ => [] end) l.

(** A ledger that rejects every call, with no cleanup meanwhile. *)
Definition unreachable (A : Type) : nat -> reply A :=
  fun _ => {| cancelled := false; result := None |}.

End Reconciler.

(** ** The payment session ([PaymentProvider]) *)

Module Session.
Import BigNum Rpc.

(** Modelled from the spec: the enumeration [PaymentStatus] of
    [hooks/usePayment], whose declaration is not among the sources; the
    session's status is one of New, Pending, Confirmed. *)
Inductive PaymentStatus := New | Pending | Confirmed.

Record session := {
  amount : option BigNumber;
  memo : option string;
  reference : option PublicKey;
  status : PaymentStatus
}.

(** A call [navigate(path, replace)]. *)
Record navigation := { path : string; replace : bool }.

(** The component: its state, the calls of [navigate] so far, the errors
    written to the console, the interval of the watcher effect (with the
    reference its closure captured) and the polls whose ledger calls are
    still pending (each with the reference it captured). *)
Record app := {
  sess : session;
  routes : list navigation;
  errors : nat;
  interval : option PublicKey;
  inflight : list PublicKey
}.

Definition withSession (f : session -> session) (a : app) : app :=
  {| sess := f (sess a);
     routes := routes a;
     errors := errors a;
     interval := interval a;
     inflight := inflight a |}.

Definition navigate (p : string) (r : bool) (a : app) : app :=
  {| sess := sess a;
     routes := routes a ++ [{| path := p; replace := r |}];
     errors := errors a;
     interval := interval a;
     inflight := inflight a |}.

Definition consoleError (a : app) : app :=
  {| sess := sess a;
     routes := routes a;
     errors := S (errors a);
     interval := interval a;
     inflight := inflight a |}.

Definition setAmount (x : option BigNumber) : app -> app :=
  withSession (fun s =>
    {| amount := x; memo := memo s;
       reference := reference s; status := status s |}).

Definition setMemo (x : option string) : app -> app :=
  withSession (fun s =>
    {| amount := amount s; memo := x;
       reference := reference s; status := status s |}).

Definition setReference (x : option PublicKey) : app -> app :=
  withSession (fun s =>
    {| amount := amount s; memo := memo s;
       reference := x; status := status s |}).

Definition setStatus (x : PaymentStatus) : app -> app :=
  withSession (fun s =>
    {| amount := amount s; memo := memo s;
       reference := reference s; status := x |}).

Definition isNew (s : PaymentStatus) : bool :=
  match s with New => true | _ => false end.

Definition isPending (s : PaymentStatus) : bool :=
  match s with Pending => true | _ => false end.

Definition reset (a : app) : app :=
  navigate "/new" true
    (setStatus New (setReference None (setMemo None (setAmount None a)))).

(** [generate], [key] being the public key of [Keypair.generate()]. *)
Definition generate (key : PublicKey) (a : app) : app :=
  match isNew (status (sess a)), reference (sess a) with
  | true, None =>
      navigate "/pending" false (setStatus Pending (setReference (Some key) a))
  | _, _ => a
  end.

(** The watcher effect after a render: its cleanup clears the interval, and
    a new interval is set only for a pending session with a reference. *)
Definition watch (a : app) : app :=
  {| sess := sess a;
     routes := routes a;
     errors := errors a;
     interval :=
       match isPending (status (sess a)), reference (sess a) with
       | true, Some r => Some r
       | _, _ => None
       end;
     inflight := inflight a |}.

(** Unmounting runs the cleanup only. *)
Definition unmount (a : app) : app :=
  {| sess := sess a;
     routes := routes a;
     errors := errors a;
     interval := None;
     inflight := inflight a |}.

(** What the ledger answers to one poll: [findReference] throws
    [FindReferenceError], throws something else, or returns a signature, and
    then [getSignatureStatus] is rejected ([None]) or resolves to a status
    that may be [null]. *)
Inductive answer :=
| NotFound
| Failed
| Found (signature : TransactionSignature)
        (txStatus : option (option SignatureStatus)).

(** [checkTransaction] from the point where its ledger calls have been
    answered. *)
Definition checkTransaction (ans : answer) (a : app) : app :=
  match ans with
  | Found _ (Some value) =>
      match value with
      | Some st =>
          match confirmationStatus st with
          | Some confirmed | Some finalized =>
              navigate "/confirmed" true (setStatus Confirmed a)
          | _ => a
          end
      | None => a
      end
  | Found _ None => consoleError a
  | NotFound => a
  | Failed => consoleError a
  end.

(** The ledger's answer shows the transaction at the "confirmed" or the
    "finalized" level. *)
Definition sufficient (ans : answer) : Prop :=
  exists sig st,
    ans = Found sig (Some (Some st))
    /\ (confirmationStatus st = Some confirmed
        \/ confirmationStatus st = Some finalized).

(** The interval fires: a poll starts and waits for the ledger. *)
Definition tick (a : app) : app :=
  match interval a with
  | None => a
  | Some r =>
      {| sess := sess a;
         routes := routes a;
         errors := errors a;
         interval := interval a;
         inflight := inflight a ++ [r] |}
  end.

(** The oldest pending poll is answered. *)
Definition settle (ans : answer) (a : app) : app :=
  match inflight a with
  | [] => a
  | _ :: rest =>
      checkTransaction ans
        {| sess := sess a;
           routes := routes a;
           errors := errors a;
           interval := interval a;
           inflight := rest |}
  end.

(** Everything that can happen to the session. *)
Inductive operation :=
| SetAmount (x : option BigNumber)
| SetMemo (x : option string)
| Generate (key : PublicKey)
| Reset
| Tick
| Settle (ans : answer).

Definition isReset (op : operation) : bool :=
  match op with Reset => true | _ => false end.

(** One operation called from the current render, then the render that
    follows it and re-evaluates the watcher effect.  Several calls made from
    one and the same render are [handler] below. *)
Definition step (op : operation) (a : app) : app :=
  watch
    match op with
    | SetAmount x => setAmount x a
    | SetMemo x => setMemo x a
    | Generate key => generate key a
    | Reset => reset a
    | Tick => tick a
    | Settle ans => settle ans a
    end.

Definition steps (ops : list operation) (a : app) : app :=
  fold_left (fun acc op => step op acc) ops a.

(** [generate] as the closure of one render: its guard reads the status and
    the reference that render captured, its writes go to the state the
    calls of the handler are building. *)
Definition generateFrom (rendered : session) (key : PublicKey) (a : app)
  : app :=
  match isNew (status rendered), reference rendered with
  | true, None =>
      navigate "/pending" false (setStatus Pending (setReference (Some key) a))
  | _, _ => a
  end.

(** The calls a consumer can make on the context value. *)
Inductive invocation :=
| CallSetAmount (x : option BigNumber)
| CallSetMemo (x : option string)
| CallGenerate (key : PublicKey)
| CallReset.

Definition invoke (rendered : session) (a : app) (c : invocation) : app :=
  match c with
  | CallSetAmount x => setAmount x a
  | CallSetMemo x => setMemo x a
  | CallGenerate key => generateFrom rendered key a
  | CallReset => reset a
  end.

(** Calls made one after the other from the render of [a], without a
    render between them; then the render. *)
Definition handler (cs : list invocation) (a : app) : app :=
  watch (fold_left (invoke (sess a)) cs a).

(** The component as mounted. *)
Definition mounted : app :=
  {| sess := {| amount := None; memo := None;
                reference := None; status := New |};
     routes := [];
     errors := O;
     interval := None;
     inflight := [] |}.

End Session.

(** ** A ledger that cannot be reached

    What an exhausted poll leaves behind, for the statements about the
    polling loops. *)

Module Outage.
Import Reconciler.

(** The caller's policy on a failed call. *)
Definition doubled (ms : Z) : Z := Z.min (ms * 2) 30000.

(** A loop after one poll in which all five attempts were rejected. *)
Definition exhausted (w : loop) : loop :=
  let c := currentDelay w in
  {| ui := {| signatures := signatures (ui w);
              transactions := transactions (ui w);
              loading := true |};
     changed := false;
     currentDelay := doubled c;
     calls := (5 + calls w)%nat;
     log := log w ++
            [ SetLoading true; Delay (c * 1);
              SetLoading true; Delay (c * 2);
              SetLoading true; Delay (c * 4);
              SetLoading true; Delay (c * 8);
              SetLoading true; SetTimeout (doubled c) ] |}.

(** The inner sleeps of one exhausted poll whose base delay is [c]. *)
Definition innerSleeps (c : Z) : list Z := [c * 1; c * 2; c * 4; c * 8].

(** Modelled from the spec: [arraysEqual] of [utils/arraysEqual], which is
    not among the sources; the lists are equal when their ordered contents
    are. *)
Fixpoint sameSignatures (a b : list Rpc.TransactionSignature) : bool :=
  match a, b with
  | [], [] => true
  | x :: a', y :: b' => String.eqb x y && sameSignatures a' b'
  | _, _ => false
  end.

Definition idle : provider :=
  {| signatures := []; transactions := []; loading := false |}.

End Outage.

(** *** Two payments, as the ledger reports them *)

Module Sample.
Import BigNum Rpc Reconciler.
Local Open Scope string_scope.

Definition merchant : PublicKey := "MerchantWallet".
Definition customer : PublicKey := "CustomerWallet".
Definition merchantTokens : PublicKey := "MerchantTokenAccount".
Definition customerTokens : PublicKey := "CustomerTokenAccount".

(** 2.5 SOL sent to the merchant, whose balance goes from 10 to 12.5 SOL. *)
Definition nativeTransfer : ParsedTransactionWithMeta :=
  {| blockTime := Some 1700000000;
     meta := Some {| err := None;
                     preBalances := [20000000000; 10000000000];
                     postBalances := [17499995000; 12500000000];
                     preTokenBalances := None;
                     postTokenBalances := None |};
     transaction :=
       {| message :=
            {| accountKeys := [ {| pubkey := customer |};
                                {| pubkey := merchant |} ];
               instructions :=
                 [ ParsedInstruction "system"
                     (Some {| type := Some "transfer";
                              info := Some {| destination := Some merchant;
                                              source := Some customer |} |}) ]
            |} |} |}.

(** Three tokens sent to the merchant's token account, from 0 to 3. *)
Definition tokenTransfer : ParsedTransactionWithMeta :=
  {| blockTime := Some 1700000100;
     meta := Some {| err := None;
                     preBalances := [5000; 2039280; 2039280];
                     postBalances := [0; 2039280; 2039280];
                     preTokenBalances :=
                       Some [ {| accountIndex := 1;
                                 uiTokenAmount := {| uiAmountString := Some "8" |} |};
                              {| accountIndex := 2;
                                 uiTokenAmount := {| uiAmountString := Some "0" |} |} ];
                     postTokenBalances :=
                       Some [ {| accountIndex := 1;
                                 uiTokenAmount := {| uiAmountString := Some "5" |} |};
                              {| accountIndex := 2;
                                 uiTokenAmount := {| uiAmountString := Some "3" |} |} ]
                  |};
     transaction :=
       {| message :=
            {| accountKeys := [ {| pubkey := customer |};
                                {| pubkey := customerTokens |};
                                {| pubkey := merchantTokens |} ];
               instructions :=
                 [ ParsedInstruction "spl-token"
                     (Some {| type := Some "transferChecked";
                              info := Some {| destination := Some merchantTokens;
                                              source := Some customerTokens |} |}) ]
            |} |} |}.

Definition confirmedStatus : SignatureStatus :=
  {| confirmationStatus := Some confirmed; Rpc.confirmations := Some 12 |}.

Definition finalizedStatus : SignatureStatus :=
  {| confirmationStatus := Some finalized; Rpc.confirmations := None |}.

(** The decimal texts of the samples, read as bignumber.js reads them. *)
Definition digit (s : string) : BigNumber :=
  if String.eqb s "0" then Finite 0
  else if String.eqb s "3" then Finite 3
  else if String.eqb s "5" then Finite 5
  else if String.eqb s "8" then Finite 8
  else NaN.

Definition nativeRecord : Transaction :=
  {| signature := "sig-native";
     amount := Finite (5 # 2);
     timestamp := 1700000000;
     error := None;
     status := confirmed;
     confirmations := 12 |}.

Definition tokenRecord : Transaction :=
  {| signature := "sig-token";
     amount := Finite 3;
     timestamp := 1700000100;
     error := None;
     status := finalized;
     confirmations := 32 |}.


(** A transaction whose single instruction the ledger reports as parsed,
    but without the parsed part. *)
Definition malformed : ParsedTransactionWithMeta :=
  {| blockTime := Some 1700000200;
     meta := Some {| err := None;
                     preBalances := [1000; 1000];
                     postBalances := [1000; 1000];
                     preTokenBalances := None;
                     postTokenBalances := None |};
     transaction :=
       {| message :=
            {| accountKeys := [ {| pubkey := customer |};
                                {| pubkey := merchant |} ];
               instructions := [ ParsedInstruction "system" None ] |} |} |}.

End Sample.

(** *** A checkout, step by step *)

Module Checkout.
Import Rpc Session.
Local Open Scope string_scope.

Definition price : BigNum.BigNumber := BigNum.Finite (1 # 4).
Definition key : PublicKey := "ReferenceKey".

(** The transaction that carries the reference, seen at the "confirmed"
    level. *)
Definition paid : answer :=
  Found "sig-paid"
        (Some (Some {| confirmationStatus := Some confirmed;
                       confirmations := Some 1 |})).

(** The same transaction seen at the "processed" level. *)
Definition processing : answer :=
  Found "sig-paid"
        (Some (Some {| confirmationStatus := Some processed;
                       confirmations := Some 0 |})).

(** An amount is entered and the request is generated. *)
Definition waiting : app :=
  steps [SetAmount (Some price); Generate key] mounted.

(** A poll starts, the session is reset while the ledger call is pending,
    and then the call is answered. *)
Definition resetDuringPoll : app :=
  steps [Tick; Reset; Settle paid] waiting.

(** A poll starts, the component is unmounted while the ledger call is
    pending, and then the call is answered. *)
Definition unmountDuringPoll : app :=
  settle paid (unmount (step Tick waiting)).

End Checkout.

(** ** The payment request ([url] of [PaymentProvider]) *)

(** What [useConfig] provides. *)
Module Config.
Import Rpc.

Record config := {
  recipient : PublicKey;
  splToken : option PublicKey;
  label : option string;
  message : option string
}.

End Config.

Module Request.
Import BigNum Rpc.

(** The argument of [encodeURL]. *)
Record TransferRequestURLFields := {
  recipient : PublicKey;
  amount : BigNumber;
  splToken : option PublicKey;
  reference : PublicKey;
  label : option string;
  message : option string;
  memo : option string
}.

Section Encoding.
(** [encodeURL] of the payment protocol library, and the type of what it
    returns. *)
Variable URL : Type.
Variable encodeURL : TransferRequestURLFields -> URL.

(** The memoised [url]: [undefined] unless the session has both an amount
    and a reference. *)
Definition url (c : Config.config) (s : Session.session) : option URL :=
  match Session.amount s, Session.reference s with
  | Some a, Some r =>
      Some (encodeURL {| recipient := Config.recipient c;
                         amount := a;
                         splToken := Config.splToken c;
                         reference := r;
                         label := Config.label c;
                         message := Config.message c;
                         memo := Session.memo s |})
  | _, _ => None
  end.

End Encoding.

End Request.

(** ** The token account of the recipient (first effect of
    [TransactionsProvider]) *)

Module TokenAccount.
Import Rpc.

(** The state [associatedToken], and the [changed] flag of every run of the
    effect that went past [if (!splToken) return;], the oldest run first:
    each run has a closure, and a flag, of its own. *)
Record state := {
  associatedToken : option PublicKey;
  flags : list bool
}.

(** One run of the effect for the configured token: with no token it
    returns at once, with no cleanup; otherwise it starts a run, whose
    number is the number of runs before it. *)
Definition effect (splToken : option PublicKey) (st : state) : state :=
  match splToken with
  | None => st
  | Some _ =>
      {| associatedToken := associatedToken st;
         flags := flags st ++ [false] |}
  end.

(** [changed = true] in the closure of run [run]. *)
Fixpoint setChanged (run : nat) (l : list bool) : list bool :=
  match l, run with
  | [], _ => []
  | _ :: rest, O => true :: rest
  | flag :: rest, S run' => flag :: setChanged run' rest
  end.

(** [getAssociatedTokenAddress] of run [run] resolves to [ata]. *)
Definition resolve (run : nat) (ata : PublicKey) (st : state) : state :=
  match nth_error (flags st) run with
  | Some false => {| associatedToken := Some ata; flags := flags st |}
  | _ => st
  end.

(** The cleanup that run [run] returned. *)
Definition cleanup (run : nat) (st : state) : state :=
  match nth_error (flags st) run with
  | Some _ =>
      {| associatedToken := None; flags := setChanged run (flags st) |}
  | None => st
  end.

Inductive event :=
| Start (splToken : option PublicKey)
| Resolve (run : nat) (ata : PublicKey)
| Cleanup (run : nat).

Definition handle (st : state) (e : event) : state :=
  match e with
  | Start splToken => effect splToken st
  | Resolve run ata => resolve run ata st
  | Cleanup run => cleanup run st
  end.

Definition handleAll (es : list event) (st : state) : state :=
  fold_left handle es st.

End TokenAccount.

(** ** The product selection ([MemecoinSelection]) *)

Module Selection.
Local Set Warnings "-inexact-float".

Record Memecoin := {
  idx : Z;
  name : string;
  price_in_sol : float;
  quantity : Z;
  icon : string
}.

Definition initialMemecoins : list Memecoin :=
  [ {| idx := 0; name := "BONK"; price_in_sol := 0.1%float;
       quantity := 0; icon := "🐶" |};
    {| idx := 1; name := "FWOG"; price_in_sol := 0.05%float;
       quantity := 0; icon := "🐸" |};
    {| idx := 2; name := "WIF"; price_in_sol := 0.02%float;
       quantity := 0; icon := "🐕" |} ].

(** [{ ...memecoin, quantity: newQuantity }] *)
Definition withQuantity (newQuantity : Z) (m : Memecoin) : Memecoin :=
  {| idx := idx m;
     name := name m;
     price_in_sol := price_in_sol m;
     quantity := newQuantity;
     icon := icon m |}.

Definition updateQuantity (i newQuantity : Z) (memecoins : list Memecoin)
  : list Memecoin :=
  map (fun memecoin =>
         if idx memecoin =? i then withQuantity newQuantity memecoin
         else memecoin) memecoins.

(** [onMinus] and [onPlus] read [memecoins[idx].quantity]; [None] is the
    [TypeError] of reading [quantity] of [undefined]. *)
Definition onMinus (i : Z) (memecoins : list Memecoin)
  : option (list Memecoin) :=
  match Js.index memecoins i with
  | None => None
  | Some m =>
      let qty := quantity m in
      if 0 <? qty then Some (updateQuantity i (qty - 1) memecoins)
      else Some memecoins
  end.

Definition onPlus (i : Z) (memecoins : list Memecoin)
  : option (list Memecoin) :=
  match Js.index memecoins i with
  | None => None
  | Some m =>
      let qty := quantity m in
      Some (updateQuantity i (qty + 1) memecoins)
  end.

(** A click on one of the two buttons of the card of the coin [idx]. *)
Inductive click :=
| Minus (i : Z)
| Plus (i : Z).

Definition press (c : click) (memecoins : list Memecoin)
  : option (list Memecoin) :=
  match c with
  | Minus i => onMinus i memecoins
  | Plus i => onPlus i memecoins
  end.

Fixpoint pressAll (cs : list click) (memecoins : list Memecoin)
  : option (list Memecoin) :=
  match cs with
  | [] => Some memecoins
  | c :: rest =>
      match press c memecoins with
      | None => None
      | Some next => pressAll rest next
      end
  end.

(** The buttons rendered for a list of coins: one pair per card, each bound
    to the [idx] of its coin. *)
Definition offered (c : click) (memecoins : list Memecoin) : Prop :=
  match c with
  | Minus i | Plus i => In i (map idx memecoins)
  end.

(** Each coin sits at the position its [idx] names. *)
Fixpoint alignedFrom (at_ : Z) (memecoins : list Memecoin) : Prop :=
  match memecoins with
  | [] => True
  | m :: rest => idx m = at_ /\ alignedFrom (at_ + 1) rest
  end.

Definition aligned (memecoins : list Memecoin) : Prop :=
  alignedFrom 0 memecoins.

End Selection.

(** ** Measures used in the statements *)

Module Measure.

(** The sum of a list of durations. *)
Definition total (l : list Z) : Z := fold_right Z.add 0 l.

(** [l] is [m] with some entries left out, the order kept. *)
Inductive subsequence {A : Type} : list A -> list A -> Prop :=
| sub_nil : subsequence [] []
| sub_skip x l m : subsequence l m -> subsequence l (x :: m)
| sub_keep x l m : subsequence l m -> subsequence (x :: l) (x :: m).

(** What an attempt of either stage leaves alone: the persistent delay and
    the timers; and it awaits exactly one reply. *)
Definition steady (action : Reconciler.loop -> bool * Reconciler.loop) : Prop :=
  forall w,
    Reconciler.currentDelay (snd (action w)) = Reconciler.currentDelay w
    /\ Reconciler.timeouts (Reconciler.log (snd (action w)))
       = Reconciler.timeouts (Reconciler.log w)
    /\ Reconciler.calls (snd (action w)) = S (Reconciler.calls w).

(** The persistent delay and every timer set so far are between the base
    delay and the cap. *)
Definition bounded (w : Reconciler.loop) : Prop :=
  1000 <= Reconciler.currentDelay w <= 30000
  /\ Forall (fun ms => 1000 <= ms <= 30000)
            (Reconciler.timeouts (Reconciler.log w)).

(** The only effects a cancelled loop still has: it asserts [loading], and
    it sleeps between failed attempts. *)
Definition residual (e : Reconciler.effect) : Prop :=
  match e with
  | Reconciler.SetLoading true => True
  | Reconciler.Delay _ => True
  | _ => False
  end.

(** What a cancelled loop keeps, and all it still does, since [w0]. *)
Definition frozen (w0 w : Reconciler.loop) : Prop :=
  Reconciler.changed w = true
  /\ Reconciler.signatures (Reconciler.ui w)
     = Reconciler.signatures (Reconciler.ui w0)
  /\ Reconciler.transactions (Reconciler.ui w)
     = Reconciler.transactions (Reconciler.ui w0)
  /\ exists added,
      Reconciler.log w = Reconciler.log w0 ++ added
      /\ Forall residual added.

(** The session and its watcher agree: a session in New has no reference, a
    pending session has one, and the interval runs exactly for a pending
    session, on its reference. *)
Definition consistent (a : Session.app) : Prop :=
  (Session.status (Session.sess a) = Session.New ->
   Session.reference (Session.sess a) = None)
  /\ (Session.status (Session.sess a) = Session.Pending ->
      Session.reference (Session.sess a) <> None)
  /\ Session.interval a
     = match Session.status (Session.sess a) with
       | Session.Pending => Session.reference (Session.sess a)
       | _ => None
       end.

(** [n] polls in a row in which the reference is not found. *)
Fixpoint notFoundRounds (n : nat) : list Session.operation :=
  match n with
  | O => []
  | S n' =>
      Session.Tick :: Session.Settle Session.NotFound :: notFoundRounds n'
  end.

(** The selection as the page keeps it: every coin at the position its
    [idx] names, no quantity below zero. *)
Definition stocked (memecoins : list Selection.Memecoin) : Prop :=
  Selection.aligned memecoins
  /\ Forall (fun m => 0 <= Selection.quantity m) memecoins.

End Measure.

(** * Properties *)

(** ** Decimal numbers *)

Section BigNumFacts.
Import BigNum.

Lemma Qlt_bool_false a b : Qlt_bool a b = false <-> (b <= a)%Q.
Proof.
  unfold Qlt_bool. rewrite negb_false_iff. apply Qle_bool_iff.
Qed.

Lemma Qlt_bool_true a b : Qlt_bool a b = true <-> (a < b)%Q.
Proof.
  unfold Qlt_bool. rewrite negb_true_iff, <- not_true_iff_false, Qle_bool_iff.
  split; [apply Qnot_le_lt | apply Qlt_not_le].
Qed.






End BigNumFacts.

(** ** The retry combinator *)

Section SchedulerFacts.
Variable W : Type.
Variable delay : Z -> W -> W.
Variable fn : W -> bool * W.
Local Abbreviation attempts := (Backoff.attempts delay fn).
Local Abbreviation exponentialBackoff := (Backoff.exponentialBackoff delay fn).

Lemma attempts_unfold fuel i maxRetries initialDelay w :
  attempts fuel i maxRetries initialDelay w =
  if i <? maxRetries then
    let (ok, w1) := fn w in
    if ok then Some (true, w1)
    else if i =? maxRetries - 1 then Some (false, w1)
    else
      match fuel with
      | O => None
      | S fuel' =>
          attempts fuel' (i + 1) maxRetries initialDelay
                   (delay (initialDelay * 2 ^ i) w1)
      end
  else Some (false, w).
Proof. destruct fuel; reflexivity. Qed.

(** With the loop guard already false the body is never entered. *)
Lemma attempts_done fuel i maxRetries initialDelay w :
  maxRetries <= i ->
  attempts fuel i maxRetries initialDelay w = Some (false, w).
Proof.
  intros H. rewrite attempts_unfold.
  destruct (Z.ltb_spec i maxRetries); [lia | reflexivity].
Qed.

(** The loop always returns: fuel covering the remaining indices is enough. *)
Lemma attempts_fuel fuel i maxRetries initialDelay w :
  0 <= i ->
  (Z.to_nat (maxRetries - i) <= S fuel)%nat ->
  exists r, attempts fuel i maxRetries initialDelay w = Some r.
Proof.
  revert i w. induction fuel as [|fuel IH]; intros i w Hi Hf;
    rewrite attempts_unfold.
  - destruct (Z.ltb_spec i maxRetries); [|eauto].
    destruct (fn w) as [[|] w1]; [eauto|].
    destruct (Z.eqb_spec i (maxRetries - 1)); [eauto | lia].
  - destruct (Z.ltb_spec i maxRetries); [|eauto].
    destruct (fn w) as [[|] w1]; [eauto|].
    destruct (Z.eqb_spec i (maxRetries - 1)); [eauto|].
    apply IH; lia.
Qed.

Lemma exponentialBackoff_total maxRetries initialDelay w :
  exists r, exponentialBackoff maxRetries initialDelay w = Some r.
Proof. apply attempts_fuel; lia. Qed.

Lemma exponentialBackoff_no_attempt maxRetries initialDelay w :
  maxRetries <= 0 ->
  exponentialBackoff maxRetries initialDelay w = Some (false, w).
Proof. intros H. apply attempts_done; exact H. Qed.

End SchedulerFacts.

Section ProbeFacts.
Import Backoff.

Lemma attempts_promised action initialDelay maxRetries :
  forall r fuel i p,
    0 <= i ->
    r = Z.to_nat (maxRetries - i) ->
    (r <= S fuel)%nat ->
    attempts probe_delay (probe_fn action) fuel i maxRetries initialDelay p
    = Some (promised action initialDelay i r p).
Proof.
  induction r as [|r IH]; intros fuel i p Hi Hr Hf.
  - rewrite attempts_done by lia. unfold promised; simpl.
    destruct p as [s t]; simpl. now rewrite Nat.add_0_r, app_nil_r.
  - rewrite attempts_unfold.
    destruct (Z.ltb_spec i maxRetries) as [Hlt|]; [|lia].
    unfold promised, probe_fn; simpl.
    destruct (action (served p)) eqn:Ha.
    + simpl. now rewrite Nat.add_1_r.
    + destruct (Z.eqb_spec i (maxRetries - 1)) as [He|Hne].
      * assert (r = O) by lia. subst r. simpl.
        now rewrite Nat.add_1_r.
      * destruct fuel as [|fuel]; [lia|].
        rewrite (IH fuel (i + 1)) by lia.
        unfold promised, probe_delay; simpl.
        destruct (failures_before action (S (served p)) r) as [k|]; simpl.
        -- f_equal. f_equal. f_equal; [lia|].
           now rewrite <- !app_assoc.
        -- f_equal. f_equal. f_equal; [lia|].
           destruct r as [|m]; [lia|]. simpl.
           now rewrite <- !app_assoc.
Qed.

Lemma sleeps_app t u : sleeps (t ++ u) = sleeps t ++ sleeps u.
Proof. unfold sleeps. now rewrite flat_map_app. Qed.

Lemma invocations_app t u :
  invocations (t ++ u) = (invocations t + invocations u)%nat.
Proof. unfold invocations. now rewrite filter_app, length_app. Qed.

(** The sleeps of [k] failed rounds are [initialDelay * 2^j] for the [k]
    consecutive exponents from [from]. *)
Lemma sleeps_failed_rounds initialDelay k :
  forall from,
    sleeps (failed_rounds initialDelay from k)
    = map (fun j => initialDelay * 2 ^ (from + Z.of_nat j)) (seq 0 k).
Proof.
  induction k as [|k IH]; intros from; [reflexivity|].
  cbn [failed_rounds seq map]. unfold sleeps in *; cbn [flat_map app].
  rewrite IH, <- seq_shift, map_map. f_equal.
  - now rewrite Z.add_0_r.
  - apply map_ext; intros j. do 2 f_equal. lia.
Qed.

Lemma invocations_failed_rounds initialDelay k :
  forall from, invocations (failed_rounds initialDelay from k) = k.
Proof.
  induction k as [|k IH]; intros from; [reflexivity|].
  cbn [failed_rounds]. unfold invocations in *; cbn [filter List.length].
  now rewrite IH.
Qed.

Lemma failures_before_bound action n :
  forall start k, failures_before action start n = Some k -> (k < n)%nat.
Proof.
  induction n as [|n IH]; intros start k; simpl; [discriminate|].
  destruct (action start); [intros [= <-]; lia|].
  destruct (failures_before action (S start) n) as [k'|] eqn:E; simpl;
    [|discriminate].
  intros [= <-]. apply IH in E. lia.
Qed.

Lemma failures_before_spec action n :
  forall start k,
    failures_before action start n = Some k ->
    action (start + k)%nat = true /\
    forall j, (j < k)%nat -> action (start + j)%nat = false.
Proof.
  induction n as [|n IH]; intros start k; simpl; [discriminate|].
  destruct (action start) eqn:Ha.
  - intros [= <-]. rewrite Nat.add_0_r. split; [exact Ha | intros; lia].
  - destruct (failures_before action (S start) n) as [k'|] eqn:E; simpl;
      [|discriminate].
    intros [= <-]. destruct (IH _ _ E) as [H1 H2]. split.
    + now rewrite Nat.add_succ_r.
    + intros [|j] Hj; [now rewrite Nat.add_0_r|].
      rewrite Nat.add_succ_r. apply H2. lia.
Qed.

Lemma failures_before_none action n :
  forall start,
    failures_before action start n = None <->
    forall j, (j < n)%nat -> action (start + j)%nat = false.
Proof.
  induction n as [|n IH]; intros start; simpl.
  - split; [intros _ j Hj; lia | reflexivity].
  - destruct (action start) eqn:Ha.
    + split; [discriminate|]. intros H. specialize (H O).
      rewrite Nat.add_0_r in H. rewrite H in Ha; [discriminate | lia].
    + destruct (failures_before action (S start) n) as [k'|] eqn:E; simpl.
      * split; [discriminate|]. intros H.
        assert (N : failures_before action (S start) n = None);
          [|congruence].
        apply IH. intros j Hj.
        replace (S start + j)%nat with (start + S j)%nat by lia.
        apply H. lia.
      * split; [|reflexivity]. intros _ [|j] Hj.
        -- now rewrite Nat.add_0_r.
        -- replace (start + S j)%nat with (S start + j)%nat by lia.
           apply (proj1 (IH (S start)) E). lia.
Qed.

End ProbeFacts.

Lemma failures_before_first action n :
  forall start k,
    (k < n)%nat ->
    action (start + k)%nat = true ->
    (forall j, (j < k)%nat -> action (start + j)%nat = false) ->
    Backoff.failures_before action start n = Some k.
Proof.
  induction n as [|n IH]; intros start k Hk Hs Hf; [lia|]. simpl.
  destruct k as [|k].
  - rewrite Nat.add_0_r in Hs. now rewrite Hs.
  - assert (E : action (start + 0)%nat = false) by (apply Hf; lia).
    rewrite Nat.add_0_r in E. rewrite E.
    rewrite (IH (S start) k); [reflexivity | lia | |].
    + now replace (S start + k)%nat with (start + S k)%nat by lia.
    + intros j Hj. replace (S start + j)%nat with (start + S j)%nat by lia.
      apply Hf. lia.
Qed.

Lemma observe_promised action maxRetries initialDelay :
  Backoff.observe action maxRetries initialDelay
  = Some (Backoff.promised action initialDelay 0 (Z.to_nat maxRetries)
                           Backoff.blank).
Proof.
  unfold Backoff.observe, Backoff.exponentialBackoff.
  apply attempts_promised; lia.
Qed.

(** C6. One call of [exponentialBackoff action maxRetries initialDelay].
    If the invocation of index [k] (below [maxRetries]) is the first that
    succeeds, the call returns [true] after exactly [k + 1] invocations, the
    action is not invoked again, and between consecutive invocations it slept
    [initialDelay * 2^j], [j = 0 .. k-1].  If all [maxRetries] invocations
    fail, it returns [false] after exactly [maxRetries] invocations with the
    sleeps [initialDelay * 2^j], [j = 0 .. maxRetries-2], between them: at
    most [maxRetries - 1] sleeps, and the last event is the failed
    invocation, not a sleep. *)
Theorem exponentialBackoff_contract
  (action : nat -> bool) (maxRetries initialDelay : Z) :
  (forall k : nat,
      Z.of_nat k < maxRetries ->
      action k = true ->
      (forall j, (j < k)%nat -> action j = false) ->
      Backoff.observe action maxRetries initialDelay
      = Some (true, {| Backoff.served := S k;
                       Backoff.trace := Backoff.trace_success initialDelay k |}))
  /\ ((forall j : nat, Z.of_nat j < maxRetries -> action j = false) ->
      Backoff.observe action maxRetries initialDelay
      = Some (false,
              {| Backoff.served := Z.to_nat maxRetries;
                 Backoff.trace :=
                   Backoff.trace_failure initialDelay (Z.to_nat maxRetries) |}))
  /\ (forall k : nat,
      Backoff.sleeps (Backoff.trace_success initialDelay k)
      = map (fun j => initialDelay * 2 ^ Z.of_nat j) (seq 0 k)
      /\ Backoff.invocations (Backoff.trace_success initialDelay k) = S k)
  /\ (forall n : nat,
      Backoff.sleeps (Backoff.trace_failure initialDelay n)
      = map (fun j => initialDelay * 2 ^ Z.of_nat j) (seq 0 (n - 1))
      /\ Backoff.invocations (Backoff.trace_failure initialDelay n) = n
      /\ (0 < n -> last (Backoff.trace_failure initialDelay n) (Backoff.Sleep 0)
                   = Backoff.Invoke false)%nat).
Proof.
  repeat split.
  - intros k Hk Hs Hf. rewrite observe_promised. unfold Backoff.promised.
    cbn [Backoff.served Backoff.blank].
    rewrite (@failures_before_first action (Z.to_nat maxRetries) O k);
      [reflexivity | lia | exact Hs | exact Hf].
  - intros Hf. rewrite observe_promised. unfold Backoff.promised.
    cbn [Backoff.served Backoff.blank].
    assert (E : Backoff.failures_before action 0 (Z.to_nat maxRetries) = None).
    { apply failures_before_none. intros j Hj. apply Hf. lia. }
    rewrite E. reflexivity.
  - unfold Backoff.trace_success.
    rewrite sleeps_app, sleeps_failed_rounds.
    cbn. now rewrite app_nil_r.
  - unfold Backoff.trace_success.
    rewrite invocations_app, invocations_failed_rounds.
    cbn. lia.
  - destruct n as [|m]; [reflexivity|]. unfold Backoff.trace_failure.
    rewrite sleeps_app, sleeps_failed_rounds.
    cbn [Backoff.sleeps flat_map app]. rewrite app_nil_r.
    now replace (S m - 1)%nat with m by lia.
  - destruct n as [|m]; [reflexivity|]. unfold Backoff.trace_failure.
    rewrite invocations_app, invocations_failed_rounds.
    cbn. lia.
  - intros Hn. destruct n as [|m]; [lia|]. unfold Backoff.trace_failure.
    apply last_last.
Qed.

(** Three failures, then a success, within five attempts of base 1000 ms. *)
Example exponentialBackoff_fourth_attempt :
  Backoff.observe (fun n => Nat.eqb n 3) 5 1000
  = Some (true,
          {| Backoff.served := 4;
             Backoff.trace :=
               [Backoff.Invoke false; Backoff.Sleep 1000;
                Backoff.Invoke false; Backoff.Sleep 2000;
                Backoff.Invoke false; Backoff.Sleep 4000;
                Backoff.Invoke true] |}).
Proof. reflexivity. Qed.

(** Five failures in five attempts: four sleeps, none after the last. *)
Example exponentialBackoff_exhausted :
  Backoff.observe (fun _ => false) 5 1000
  = Some (false,
          {| Backoff.served := 5;
             Backoff.trace :=
               [Backoff.Invoke false; Backoff.Sleep 1000;
                Backoff.Invoke false; Backoff.Sleep 2000;
                Backoff.Invoke false; Backoff.Sleep 4000;
                Backoff.Invoke false; Backoff.Sleep 8000;
                Backoff.Invoke false] |}).
Proof. reflexivity. Qed.

(** C10. Called with [maxRetries <= 0], [exponentialBackoff] returns [false]
    with no invocation of the action and no sleep; for every
    [maxRetries >= 0] the call returns and has invoked the action at most
    [maxRetries] times. *)
Theorem exponentialBackoff_attempt_bound
  (action : nat -> bool) (maxRetries initialDelay : Z) :
  exists b p,
    Backoff.observe action maxRetries initialDelay = Some (b, p)
    /\ (maxRetries <= 0 -> b = false /\ p = Backoff.blank)
    /\ (0 <= maxRetries ->
        Z.of_nat (Backoff.served p) <= maxRetries
        /\ Backoff.invocations (Backoff.trace p) = Backoff.served p).
Proof.
  rewrite observe_promised. unfold Backoff.promised.
  cbn [Backoff.served Backoff.trace Backoff.blank].
  destruct (Backoff.failures_before action 0 (Z.to_nat maxRetries))
    as [k|] eqn:E.
  - pose proof (failures_before_bound _ _ _ E) as Hk.
    eexists _, _. split; [reflexivity|]. split.
    + intros H. lia.
    + intros H. cbn [Backoff.served Backoff.trace app]. split; [lia|].
      rewrite invocations_app, invocations_failed_rounds.
      cbn. lia.
  - eexists _, _. split; [reflexivity|]. split.
    + intros H. replace (Z.to_nat maxRetries) with O by lia. now split.
    + intros H. cbn [Backoff.served Backoff.trace app]. split; [lia|].
      destruct (Z.to_nat maxRetries) as [|m]; [reflexivity|].
      rewrite invocations_app, invocations_failed_rounds.
      cbn. lia.
Qed.

(** ** The matching rule of the reconciler *)

Section ExtractionFacts.
Import BigNum Rpc Js Reconciler.
Variable recipient : PublicKey.
Variable associatedToken : option PublicKey.
Variable MAX_CONFIRMATIONS : Z.
Variable bigNumberOfString : string -> BigNumber.


Lemma bind_Emit A B (o : outcome A) (k : A -> outcome B) b :
  bind o k = Emit b -> exists a, o = Emit a /\ k a = Emit b.
Proof. destruct o; simpl; [eauto | discriminate | discriminate]. Qed.

Lemma require_Emit c u : require c = Emit u -> c = true.
Proof. destruct c; [reflexivity | discriminate]. Qed.

Lemma present_Emit A (x : option A) a : present x = Emit a -> x = Some a.
Proof. destruct x; simpl; congruence. Qed.

Lemma deref_Emit A (x : option A) a : deref x = Emit a -> x = Some a.
Proof. destruct x; simpl; congruence. Qed.

Lemma strictEq_true a b : strictEq a b = true <-> a = Some b.
Proof.
  destruct a as [s|]; simpl.
  - rewrite String.eqb_eq. split; congruence.
  - split; discriminate.
Qed.

Lemma orZero_default n :
  orZero n = match n with Some c => c | None => 0 end.
Proof.
  destruct n as [c|]; [|reflexivity]. unfold orZero, truthyNumber.
  destruct (Z.eqb_spec c 0); congruence.
Qed.

Ltac invert_bind H :=
  let a := fresh "v" in
  let E := fresh "E" in
  apply bind_Emit in H; destruct H as (a & E & H).


(** Everything an emitted record was computed from. *)
Lemma extract_inv parsedTransactions signatureStatuses sig idx r :
  extract recipient associatedToken MAX_CONFIRMATIONS bigNumberOfString
          parsedTransactions signatureStatuses sig idx = Emit r ->
  exists tx m st ts s program p pre post,
    indexNullable parsedTransactions idx = Some tx
    /\ meta tx = Some m
    /\ indexNullable signatureStatuses idx = Some st
    /\ truthyNumber (blockTime tx) = Some ts
    /\ confirmationStatus st = Some s
    /\ instructions (message (transaction tx))
       = [ParsedInstruction program (Some p)]
    /\ balances recipient associatedToken bigNumberOfString tx m program
                (Rpc.type p) (Rpc.info p) = Emit (pre, post)
    /\ lt post pre = false
    /\ r = {| signature := sig;
              amount := minus post pre;
              timestamp := ts;
              error := err m;
              status := s;
              confirmations :=
                if isFinalized s then MAX_CONFIRMATIONS
                else orZero (Rpc.confirmations st) |}.
Proof.
  unfold extract. intros H.
  invert_bind H. apply present_Emit in E.
  invert_bind H. apply present_Emit in E0.
  invert_bind H. apply present_Emit in E1.
  invert_bind H. apply present_Emit in E2.
  invert_bind H. apply present_Emit in E3.
  destruct (instructions (message (transaction v))) as [|ins [|? ?]] eqn:Ei;
    try discriminate.
  destruct ins as [program parsed|]; [|discriminate].
  invert_bind H. apply deref_Emit in E4. subst parsed.
  invert_bind H. destruct v5 as [pre post].
  invert_bind H. apply require_Emit, negb_true_iff in E5.
  injection H as <-.
  exists v, v0, v1, v2, v3, program, v4, pre, post.
  repeat (split; [assumption || reflexivity|]). reflexivity.
Qed.

(** The published list holds exactly the records the callback emitted. *)
Lemma collect_members mapped :
  forall l r, collect mapped = Some l -> In r l -> In (Emit r) mapped.
Proof.
  induction mapped as [|o rest IH]; intros l r H Hin; cbn in H.
  - injection H as <-. contradiction.
  - destruct o as [t| |]; [|right; eauto|discriminate].
    destruct (collect rest) as [l'|]; [|discriminate].
    injection H as <-. destruct Hin as [<-|Hin]; [now left|].
    right. eauto.
Qed.

Lemma mapSignatures_members parsedTransactions signatureStatuses sigs :
  forall at_ o,
    In o (mapSignatures recipient associatedToken MAX_CONFIRMATIONS
                        bigNumberOfString parsedTransactions
                        signatureStatuses at_ sigs) ->
    exists sig idx,
      In sig sigs
      /\ o = extract recipient associatedToken MAX_CONFIRMATIONS
                     bigNumberOfString parsedTransactions signatureStatuses
                     sig idx.
Proof.
  induction sigs as [|s rest IH]; intros at_ o H; cbn in H; [contradiction|].
  destruct H as [<-|H].
  - exists s, at_. split; [now left | reflexivity].
  - destruct (IH _ _ H) as (sig & idx & Hin & E).
    exists sig, idx. split; [now right | exact E].
Qed.

Lemma reconcile_members sigs parsedTransactions signatureStatuses l r :
  reconcile recipient associatedToken MAX_CONFIRMATIONS bigNumberOfString
            sigs parsedTransactions signatureStatuses = Some l ->
  In r l ->
  exists sig idx,
    In sig sigs
    /\ extract recipient associatedToken MAX_CONFIRMATIONS bigNumberOfString
               parsedTransactions signatureStatuses sig idx = Emit r.
Proof.
  unfold reconcile. intros H Hin.
  pose proof (@collect_members _ _ _ H Hin) as Hm.
  apply mapSignatures_members in Hm.
  destruct Hm as (sig & idx & Hs & E). eauto.
Qed.


(** C8. A published record with status "finalized" has exactly
    [MAX_CONFIRMATIONS] confirmations; with any other status it has the
    count the ledger supplied, and 0 when the ledger supplied none. *)
Theorem emitted_confirmations
  sigs parsedTransactions signatureStatuses l r :
  reconcile recipient associatedToken MAX_CONFIRMATIONS bigNumberOfString
            sigs parsedTransactions signatureStatuses = Some l ->
  In r l ->
  exists idx st,
    indexNullable signatureStatuses idx = Some st
    /\ confirmationStatus st = Some (status r)
    /\ (status r = finalized -> confirmations r = MAX_CONFIRMATIONS)
    /\ (status r <> finalized ->
        confirmations r = match Rpc.confirmations st with
                          | Some count => count
                          | None => 0
                          end).
Proof.
  intros Hrec Hin.
  destruct (@reconcile_members _ _ _ _ _ Hrec Hin) as (sig & idx & _ & H).
  apply extract_inv in H.
  destruct H as (tx & m & st & ts & s & program & p & pre & post
                 & Htx & Hm & Hst & Hts & Hs & Hins & Hbal & Hlt & ->).
  exists idx, st. cbn [status confirmations]. repeat split; try assumption.
  - now intros ->.
  - intros Hn. rewrite orZero_default. destruct s; try reflexivity.
    now contradiction Hn.
Qed.

End ExtractionFacts.


Example extract_native_transfer :
  Reconciler.extract Sample.merchant None 32 Sample.digit
    [Some Sample.nativeTransfer] [Some Sample.confirmedStatus] "sig-native"%string 0
  = Reconciler.Emit Sample.nativeRecord.
Proof. vm_compute. reflexivity. Qed.

Example extract_token_transfer :
  Reconciler.extract Sample.merchant (Some Sample.merchantTokens) 32
    Sample.digit
    [None; Some Sample.tokenTransfer] [None; Some Sample.finalizedStatus]
    "sig-token"%string 1
  = Reconciler.Emit Sample.tokenRecord.
Proof. vm_compute. reflexivity. Qed.

(** A token transfer to another token account is not a payment. *)
Example extract_other_account :
  Reconciler.extract Sample.merchant (Some Sample.customerTokens) 32
    Sample.digit
    [Some Sample.tokenTransfer] [Some Sample.finalizedStatus] "sig-token"%string 0
  = Reconciler.Skip.
Proof. vm_compute. reflexivity. Qed.

(** The two sample payments reconciled in one pass, in each mode. *)
Example reconcile_native :
  Reconciler.reconcile Sample.merchant None 32 Sample.digit
    ["sig-token"; "sig-native"]%string
    [Some Sample.tokenTransfer; Some Sample.nativeTransfer]
    [Some Sample.finalizedStatus; Some Sample.confirmedStatus]
  = Some [Sample.nativeRecord].
Proof. vm_compute. reflexivity. Qed.



Lemma emitted_confirmations_witness :
  Reconciler.reconcile Sample.merchant (Some Sample.merchantTokens) 32
    Sample.digit ["sig-native"; "sig-token"]%string
    [Some Sample.nativeTransfer; Some Sample.tokenTransfer]
    [Some Sample.confirmedStatus; Some Sample.finalizedStatus]
  = Some [Sample.tokenRecord]
  /\ In Sample.tokenRecord [Sample.tokenRecord]
  /\ Reconciler.confirmations Sample.tokenRecord = 32.
Proof.
  split; [vm_compute; reflexivity|]. split; [now left|].
  destruct (@emitted_confirmations Sample.merchant
              (Some Sample.merchantTokens) 32 Sample.digit
              ["sig-native"; "sig-token"]%string
              [Some Sample.nativeTransfer; Some Sample.tokenTransfer]
              [Some Sample.confirmedStatus; Some Sample.finalizedStatus]
              [Sample.tokenRecord] Sample.tokenRecord)
    as (idx & st & _ & _ & Hfinal & _).
  - vm_compute. reflexivity.
  - now left.
  - apply Hfinal. reflexivity.
Defined.

(** ** The polling loops under an unreachable ledger *)


Section OutageFacts.
Import Rpc Reconciler Outage.
Variable recipient : PublicKey.
Variable associatedToken : option PublicKey.
Variable MAX_CONFIRMATIONS : Z.
Variable bigNumberOfString : string -> BigNum.BigNumber.
Variable arraysEqual :
  list TransactionSignature -> list TransactionSignature -> bool.

Lemma runA_unreachable w :
  changed w = false ->
  runA arraysEqual (unreachable _) w = Some (exhausted w).
Proof.
  destruct w as [[sigs txs ld] ch cd n lg]. simpl. intros ->.
  unfold runA, run, Backoff.exponentialBackoff, exhausted, doubled.
  change (Z.to_nat 5) with 5%nat. cbn -[Z.mul Z.min].
  unfold setTimeout, setCurrentDelay. cbn -[Z.mul Z.min].
  now rewrite <- !app_assoc.
Qed.

Lemma runB_unreachable sigs w :
  changed w = false ->
  runB recipient associatedToken MAX_CONFIRMATIONS bigNumberOfString sigs
       (unreachable _) w = Some (exhausted w).
Proof.
  destruct w as [[s txs ld] ch cd n lg]. simpl. intros ->.
  unfold runB, run, Backoff.exponentialBackoff, exhausted, doubled.
  change (Z.to_nat 5) with 5%nat. cbn -[Z.mul Z.min].
  unfold setTimeout, setCurrentDelay. cbn -[Z.mul Z.min].
  now rewrite <- !app_assoc.
Qed.

Lemma timeouts_app l1 l2 : timeouts (l1 ++ l2) = timeouts l1 ++ timeouts l2.
Proof. unfold timeouts. apply flat_map_app. Qed.

Lemma delays_app l1 l2 : delays (l1 ++ l2) = delays l1 ++ delays l2.
Proof. unfold delays. apply flat_map_app. Qed.

(** [n] polls of a loop whose every poll is exhausted. *)
Lemma polls_exhausted action :
  (forall w, changed w = false -> run action w = Some (exhausted w)) ->
  forall n w,
    changed w = false ->
    exists w',
      polls action n w = Some w'
      /\ changed w' = false
      /\ currentDelay w' = Nat.iter n doubled (currentDelay w)
      /\ loading (ui w') = match n with
                           | O => loading (ui w)
                           | S _ => true
                           end
      /\ timeouts (log w')
         = timeouts (log w)
           ++ map (fun k => Nat.iter (S k) doubled (currentDelay w)) (seq 0 n)
      /\ delays (log w')
         = delays (log w)
           ++ flat_map (fun k => innerSleeps (Nat.iter k doubled (currentDelay w)))
                       (seq 0 n).
Proof.
  intros Hrun. induction n as [|n IH]; intros w Hw.
  - exists w. cbn. now rewrite !app_nil_r.
  - cbn [polls]. rewrite (Hrun w Hw). cbn [changed exhausted].
    destruct (IH (exhausted w) eq_refl) as (w' & Hp & Hc & Hd & Hl & Ht & Hs).
    exists w'. split; [exact Hp|]. split; [exact Hc|]. split; [|split; [|split]].
    + rewrite Hd. cbn [currentDelay exhausted].
      now rewrite Nat.iter_succ_r.
    + rewrite Hl. now destruct n.
    + rewrite Ht. cbn [log exhausted currentDelay].
      rewrite timeouts_app. cbn [timeouts flat_map app seq map].
      rewrite <- app_assoc. f_equal. cbn [app Nat.iter]. f_equal.
      rewrite <- seq_shift, map_map. apply map_ext. intros k.
      now rewrite <- !Nat.iter_succ_r.
    + rewrite Hs. cbn [log exhausted currentDelay].
      rewrite delays_app. cbn [delays flat_map app seq].
      rewrite <- app_assoc. f_equal. cbn [app Nat.iter innerSleeps]. 
      do 4 f_equal.
      rewrite <- seq_shift, !flat_map_concat_map, map_map. f_equal.
      apply map_ext. intros k.
      now rewrite <- !Nat.iter_succ_r.
Qed.

(** The persistent delay after [n] failed polls from the base 1000 ms. *)
Lemma doubled_closed n :
  Nat.iter n doubled 1000 = Z.min (1000 * 2 ^ Z.of_nat n) 30000.
Proof.
  induction n as [|n IH]; [reflexivity|].
  change (Nat.iter (S n) doubled 1000)
    with (doubled (Nat.iter n doubled 1000)).
  rewrite IH. unfold doubled.
  rewrite Nat2Z.inj_succ, Z.pow_succ_r by lia.
  assert (0 < 2 ^ Z.of_nat n) by (apply Z.pow_pos_nonneg; lia).
  lia.
Qed.

(** The caller's policy, whatever the action: after a call that returned
    [true] the persistent delay is the base again, after one that returned
    [false] it is doubled up to the cap, and a live loop then sets the
    timer of the next poll to the updated delay. *)
Lemma run_policy (action : loop -> bool * loop) w success w1 :
  Backoff.exponentialBackoff delay action 5 (currentDelay w) w
  = Some (success, w1) ->
  exists w',
    run action w = Some w'
    /\ ui w' = ui w1
    /\ changed w' = changed w1
    /\ currentDelay w' = (if success then 1000 else doubled (currentDelay w1))
    /\ log w' = log w1 ++ (if changed w1 then []
                           else [SetTimeout (currentDelay w')]).
Proof.
  intros H. unfold run. rewrite H.
  destruct w1 as [u ch cd n lg]. eexists. split; [reflexivity|].
  destruct success, ch; cbn; rewrite ?app_nil_r; repeat split; reflexivity.
Qed.

(** C3, as amended.  In a signature-discovery loop that starts with the
    base delay 1000 ms and whose every poll exhausts its five attempts, the
    timer set after the [k]-th poll ([k = 1, 2, ...]) is
    [min (1000 * 2^k) 30000] ms: 2000, 4000, 8000, 16000, 30000, 30000, ...;
    the base delay handed to the [k]-th call is [min (1000 * 2^(k-1)) 30000]:
    1000, 2000, 4000, 8000, 16000, 30000, 30000, ..., seen in the call's inner
    sleeps.  After any call that returns [true] the persistent delay is
    1000 ms, and that is the timer a live loop sets. *)
Theorem outer_delays_when_unreachable (p : provider) (n : nat) :
  (exists w,
      polls (actionA arraysEqual (unreachable _)) n (start p) = Some w
      /\ timeouts (log w)
         = map (fun k => Z.min (1000 * 2 ^ Z.of_nat (S k)) 30000) (seq 0 n)
      /\ delays (log w)
         = flat_map (fun k => innerSleeps (Z.min (1000 * 2 ^ Z.of_nat k) 30000))
                    (seq 0 n)
      /\ currentDelay w = Z.min (1000 * 2 ^ Z.of_nat n) 30000)
  /\ (forall (action : loop -> bool * loop) w w1,
        Backoff.exponentialBackoff delay action 5 (currentDelay w) w
        = Some (true, w1) ->
        exists w',
          run action w = Some w'
          /\ currentDelay w' = 1000
          /\ (changed w1 = false -> log w' = log w1 ++ [SetTimeout 1000])).
Proof.
  split.
  - destruct (@polls_exhausted (actionA arraysEqual (unreachable _))
                runA_unreachable n (start p) eq_refl)
      as (w & Hp & _ & Hd & _ & Ht & Hs).
    exists w. split; [exact Hp|]. cbn [start log currentDelay] in *.
    split; [|split].
    + rewrite Ht. cbn [timeouts flat_map app]. apply map_ext. intros k.
      apply doubled_closed.
    + rewrite Hs. cbn [delays flat_map app].
      rewrite !flat_map_concat_map. f_equal. apply map_ext. intros k.
      now rewrite doubled_closed.
    + rewrite Hd. apply doubled_closed.
  - intros action w w1 H.
    destruct (run_policy _ _ H) as (w' & Hr & _ & _ & Hd & Hl).
    exists w'. split; [exact Hr|]. split; [exact Hd|].
    intros Hc. rewrite Hl, Hc, Hd. reflexivity.
Qed.

(** The last event of an [exponentialBackoff] call that entered its loop is
    an invocation of the action, with the result the call returns. *)
Lemma attempts_last (W : Type) (slp : Z -> W -> W) (fn : W -> bool * W) :
  forall fuel i maxRetries initialDelay w b w',
    Backoff.attempts slp fn fuel i maxRetries initialDelay w = Some (b, w') ->
    i < maxRetries ->
    exists w0, fn w0 = (b, w').
Proof.
  induction fuel as [|fuel IH]; intros i maxRetries initialDelay w b w' H Hi;
    rewrite attempts_unfold in H;
    destruct (Z.ltb_spec i maxRetries); try lia;
    destruct (fn w) as [[|] w1] eqn:E.
  - injection H as <- <-. eauto.
  - destruct (Z.eqb_spec i (maxRetries - 1)); [|discriminate].
    injection H as <- <-. eauto.
  - injection H as <- <-. eauto.
  - destruct (Z.eqb_spec i (maxRetries - 1)).
    + injection H as <- <-. eauto.
    + apply IH in H; [exact H | lia].
Qed.


Lemma loadingWrites_app l1 l2 :
  loadingWrites (l1 ++ l2) = loadingWrites l1 ++ loadingWrites l2.
Proof. unfold loadingWrites. apply flat_map_app. Qed.

(** What one attempt writes to [loading]: a failed attempt [true] and no
    more, a successful attempt of a live loop [true] and then [false]. *)
Lemma actionA_writes ledger w :
  (fst (actionA arraysEqual ledger w) = false ->
   loadingWrites (log (snd (actionA arraysEqual ledger w)))
   = loadingWrites (log w) ++ [true])
  /\ (fst (actionA arraysEqual ledger w) = true ->
      changed (snd (actionA arraysEqual ledger w)) = false ->
      loadingWrites (log (snd (actionA arraysEqual ledger w)))
      = loadingWrites (log w) ++ [true; false]).
Proof.
  destruct w as [[sigs txs ld] ch cd n lg]. unfold actionA, await.
  cbn -[loadingWrites].
  destruct (ledger n) as [[|] [infos|]]; cbn -[loadingWrites];
    try destruct ch; cbn -[loadingWrites];
    rewrite ?loadingWrites_app; cbn;
    rewrite ?app_nil_r, <- ?app_assoc; cbn; split; congruence.
Qed.

Lemma actionB_writes sigs ledger w :
  (fst (actionB recipient associatedToken MAX_CONFIRMATIONS
                bigNumberOfString sigs ledger w) = false ->
   loadingWrites
     (log (snd (actionB recipient associatedToken MAX_CONFIRMATIONS
                        bigNumberOfString sigs ledger w)))
   = loadingWrites (log w) ++ [true])
  /\ (fst (actionB recipient associatedToken MAX_CONFIRMATIONS
                   bigNumberOfString sigs ledger w) = true ->
      changed (snd (actionB recipient associatedToken MAX_CONFIRMATIONS
                            bigNumberOfString sigs ledger w)) = false ->
      loadingWrites
        (log (snd (actionB recipient associatedToken MAX_CONFIRMATIONS
                           bigNumberOfString sigs ledger w)))
      = loadingWrites (log w) ++ [true; false]).
Proof.
  destruct w as [[s txs ld] ch cd n lg]. unfold actionB, await.
  cbn -[loadingWrites].
  destruct (ledger n) as [[|] [[pts sts]|]]; cbn -[loadingWrites];
    try destruct ch; cbn -[loadingWrites];
    try destruct (reconcile _ _ _ _ _ _ _); cbn -[loadingWrites];
    rewrite ?loadingWrites_app; cbn;
    rewrite ?app_nil_r, <- ?app_assoc; cbn; split; congruence.
Qed.

(** The writes of a call of [exponentialBackoff] that returns [false]: one
    [true] for each loop index it went through. *)
Lemma attempts_failed_writes (action : loop -> bool * loop) :
  (forall w, fst (action w) = false ->
             loadingWrites (log (snd (action w)))
             = loadingWrites (log w) ++ [true]) ->
  forall fuel i maxRetries initialDelay w w1,
    Backoff.attempts delay action fuel i maxRetries initialDelay w
    = Some (false, w1) ->
    loadingWrites (log w1)
    = loadingWrites (log w) ++ repeat true (Z.to_nat (maxRetries - i)).
Proof.
  intros Hf.
  induction fuel as [|fuel IH]; intros i maxRetries initialDelay w w1 H;
    rewrite attempts_unfold in H;
    destruct (Z.ltb_spec i maxRetries);
    try (injection H as <-;
         replace (Z.to_nat (maxRetries - i)) with O by lia;
         cbn; now rewrite app_nil_r);
    pose proof (Hf w) as Hw;
    destruct (action w) as [[|] wa]; try discriminate;
    cbn [fst snd] in Hw; specialize (Hw eq_refl);
    destruct (Z.eqb_spec i (maxRetries - 1));
    try (injection H as <-;
         replace (Z.to_nat (maxRetries - i)) with 1%nat by lia;
         exact Hw).
  - discriminate.
  - apply IH in H. rewrite H. cbn [delay log].
    rewrite loadingWrites_app, Hw. cbn [loadingWrites flat_map app].
    rewrite app_nil_r, <- app_assoc. f_equal.
    replace (Z.to_nat (maxRetries - i))
      with (S (Z.to_nat (maxRetries - (i + 1)))) by lia.
    reflexivity.
Qed.

(** The writes of a call that returns [true] in a live loop end with the
    [true] and the [false] of the successful attempt. *)
Lemma attempts_success_writes (action : loop -> bool * loop) :
  (forall w, fst (action w) = false ->
             loadingWrites (log (snd (action w)))
             = loadingWrites (log w) ++ [true]) ->
  (forall w, fst (action w) = true ->
             changed (snd (action w)) = false ->
             loadingWrites (log (snd (action w)))
             = loadingWrites (log w) ++ [true; false]) ->
  forall fuel i maxRetries initialDelay w w1,
    Backoff.attempts delay action fuel i maxRetries initialDelay w
    = Some (true, w1) ->
    changed w1 = false ->
    exists earlier,
      loadingWrites (log w1)
      = loadingWrites (log w) ++ earlier ++ [true; false].
Proof.
  intros Hf Hs.
  induction fuel as [|fuel IH]; intros i maxRetries initialDelay w w1 H Hc;
    rewrite attempts_unfold in H;
    destruct (Z.ltb_spec i maxRetries); try discriminate;
    pose proof (Hf w) as Hwf; pose proof (Hs w) as Hws;
    destruct (action w) as [[|] wa]; cbn [fst snd] in Hwf, Hws;
    try (injection H as <-; exists []; exact (Hws eq_refl Hc));
    destruct (Z.eqb_spec i (maxRetries - 1)); try discriminate.
  destruct (IH _ _ _ _ _ H Hc) as [earlier E].
  exists (true :: earlier). rewrite E. cbn [delay log].
  rewrite loadingWrites_app, (Hwf eq_refl). cbn [loadingWrites flat_map app].
  rewrite app_nil_r, <- !app_assoc. reflexivity.
Qed.

Lemma poll_writes (action : loop -> bool * loop) w success w1 :
  (forall w, fst (action w) = false ->
             loadingWrites (log (snd (action w)))
             = loadingWrites (log w) ++ [true]) ->
  (forall w, fst (action w) = true ->
             changed (snd (action w)) = false ->
             loadingWrites (log (snd (action w)))
             = loadingWrites (log w) ++ [true; false]) ->
  Backoff.exponentialBackoff delay action 5 (currentDelay w) w
  = Some (success, w1) ->
  exists w',
    run action w = Some w'
    /\ (success = false ->
        loadingWrites (log w')
        = loadingWrites (log w) ++ [true; true; true; true; true])
    /\ (success = true -> changed w' = false ->
        exists earlier,
          loadingWrites (log w')
          = loadingWrites (log w) ++ earlier ++ [true; false]).
Proof.
  intros Hf Hs H. destruct (run_policy _ _ H) as (w' & Hr & _ & Hc & _ & Hl).
  exists w'. split; [exact Hr|].
  assert (E : loadingWrites (log w') = loadingWrites (log w1)).
  { rewrite Hl, loadingWrites_app. destruct (changed w1); cbn;
      now rewrite app_nil_r. }
  rewrite E, Hc. unfold Backoff.exponentialBackoff in H. split.
  - intros ->. exact (attempts_failed_writes action Hf _ _ _ _ _ H).
  - intros -> Hlive.
    exact (attempts_success_writes action Hf Hs _ _ _ _ _ H Hlive).
Qed.

(** C9, as amended.  Every attempt of either stage starts by writing
    [loading := true]; a failed attempt writes nothing more to [loading]; an
    attempt that succeeds while the loop is live ends by writing
    [loading := false].  So the last write to [loading] of a poll that
    finishes with a successful attempt in a live loop is [false], and a
    poll that finishes by exhausting its retries has written [true] five
    times and never [false]: that poll does not clear the flag. *)
Theorem loading_flag_discipline :
  (forall ledger w,
      (exists rest,
          log (snd (actionA arraysEqual ledger w))
          = log w ++ SetLoading true :: rest)
      /\ (result (ledger (calls w)) = None ->
          fst (actionA arraysEqual ledger w) = false))
  /\ (forall sigs ledger w,
      (exists rest,
          log (snd (actionB recipient associatedToken MAX_CONFIRMATIONS
                            bigNumberOfString sigs ledger w))
          = log w ++ SetLoading true :: rest)
      /\ (result (ledger (calls w)) = None ->
          fst (actionB recipient associatedToken MAX_CONFIRMATIONS
                       bigNumberOfString sigs ledger w) = false))
  /\ (forall ledger w,
      (fst (actionA arraysEqual ledger w) = false ->
       loadingWrites (log (snd (actionA arraysEqual ledger w)))
       = loadingWrites (log w) ++ [true])
      /\ (fst (actionA arraysEqual ledger w) = true ->
          changed (snd (actionA arraysEqual ledger w)) = false ->
          loadingWrites (log (snd (actionA arraysEqual ledger w)))
          = loadingWrites (log w) ++ [true; false]))
  /\ (forall sigs ledger w,
      (fst (actionB recipient associatedToken MAX_CONFIRMATIONS
                    bigNumberOfString sigs ledger w) = false ->
       loadingWrites
         (log (snd (actionB recipient associatedToken MAX_CONFIRMATIONS
                            bigNumberOfString sigs ledger w)))
       = loadingWrites (log w) ++ [true])
      /\ (fst (actionB recipient associatedToken MAX_CONFIRMATIONS
                       bigNumberOfString sigs ledger w) = true ->
          changed (snd (actionB recipient associatedToken MAX_CONFIRMATIONS
                                bigNumberOfString sigs ledger w)) = false ->
          loadingWrites
            (log (snd (actionB recipient associatedToken MAX_CONFIRMATIONS
                               bigNumberOfString sigs ledger w)))
          = loadingWrites (log w) ++ [true; false]))
  /\ (forall ledger w success w1,
      Backoff.exponentialBackoff delay (actionA arraysEqual ledger) 5
                                 (currentDelay w) w = Some (success, w1) ->
      exists w',
        runA arraysEqual ledger w = Some w'
        /\ (success = false ->
            loadingWrites (log w')
            = loadingWrites (log w) ++ [true; true; true; true; true])
        /\ (success = true -> changed w' = false ->
            exists earlier,
              loadingWrites (log w')
              = loadingWrites (log w) ++ earlier ++ [true; false]))
  /\ (forall sigs ledger w success w1,
      Backoff.exponentialBackoff delay
        (actionB recipient associatedToken MAX_CONFIRMATIONS
                 bigNumberOfString sigs ledger) 5
        (currentDelay w) w = Some (success, w1) ->
      exists w',
        runB recipient associatedToken MAX_CONFIRMATIONS bigNumberOfString
             sigs ledger w = Some w'
        /\ (success = false ->
            loadingWrites (log w')
            = loadingWrites (log w) ++ [true; true; true; true; true])
        /\ (success = true -> changed w' = false ->
            exists earlier,
              loadingWrites (log w')
              = loadingWrites (log w) ++ earlier ++ [true; false])).
Proof.
  split; [|split; [|split; [|split; [|split]]]].
  - intros ledger [[sigs txs ld] ch cd n lg]. unfold actionA, await. cbn.
    destruct (ledger n) as [[|] [infos|]]; cbn;
      try destruct ch; cbn; rewrite <- ?app_assoc;
      (split; [eexists; reflexivity | congruence]).
  - intros sigs ledger [[s txs ld] ch cd n lg]. unfold actionB, await. cbn.
    destruct (ledger n) as [[|] [[pts sts]|]]; cbn;
      try destruct ch; cbn;
      try destruct (reconcile _ _ _ _ _ _ _); cbn; rewrite <- ?app_assoc;
      (split; [eexists; reflexivity | congruence]).
  - intros ledger w. apply actionA_writes.
  - intros sigs ledger w. apply actionB_writes.
  - intros ledger w success w1 H. unfold runA.
    apply (@poll_writes (actionA arraysEqual ledger) w success w1);
      [intros w0; apply actionA_writes
      | intros w0; apply actionA_writes | exact H].
  - intros sigs ledger w success w1 H. unfold runB.
    apply (@poll_writes
             (actionB recipient associatedToken MAX_CONFIRMATIONS
                      bigNumberOfString sigs ledger) w success w1);
      [intros w0; apply actionB_writes
      | intros w0; apply actionB_writes | exact H].
Qed.

End OutageFacts.

(** C3, as stated, fails: after the first exhausted poll the loop waits
    2000 ms, not 1000 ms. *)
Lemma outer_delays_first_seven :
  exists w,
    Reconciler.polls
      (Reconciler.actionA Outage.sameSignatures (Reconciler.unreachable _))
      7 (Reconciler.start Outage.idle) = Some w
    /\ Reconciler.timeouts (Reconciler.log w)
       = [2000; 4000; 8000; 16000; 30000; 30000; 30000]
    /\ Reconciler.timeouts (Reconciler.log w)
       <> [1000; 2000; 4000; 8000; 16000; 30000; 30000].
Proof.
  eexists. split; [vm_compute; reflexivity|]. split; [reflexivity|].
  discriminate.
Qed.

(** C9, as stated, fails.  From the start of an outage the signature list is
    empty, so detail resolution starts no loop and signature discovery is
    the only writer of [loading]: its poll exhausts its retries and ends,
    with the next poll scheduled, having written [true] five times and
    never [false]. *)
Lemma loading_stays_after_exhaustion :
  exists w,
    Reconciler.runA Outage.sameSignatures (Reconciler.unreachable _)
                    (Reconciler.start Outage.idle) = Some w
    /\ Reconciler.loading (Reconciler.ui w) = true
    /\ last (Reconciler.log w) (Reconciler.Delay 0)
       = Reconciler.SetTimeout 2000
    /\ Reconciler.loadingWrites (Reconciler.log w)
       = [true; true; true; true; true]
    /\ Reconciler.startB (Reconciler.ui w) = None.
Proof.
  eexists. split; [vm_compute; reflexivity|]. repeat split; reflexivity.
Qed.

(** A successful poll of a live loop: [loading] is cleared and the next poll
    is due after the base delay. *)
Example loading_cleared_after_success :
  Reconciler.runA Outage.sameSignatures
    (fun _ => {| Reconciler.cancelled := false;
                 Reconciler.result := Some [ {| Rpc.signature := "s1"%string |} ] |})
    (Reconciler.start Outage.idle)
  = Some {| Reconciler.ui :=
              {| Reconciler.signatures := ["s1"%string];
                 Reconciler.transactions := [];
                 Reconciler.loading := false |};
            Reconciler.changed := false;
            Reconciler.currentDelay := 1000;
            Reconciler.calls := 1;
            Reconciler.log :=
              [ Reconciler.SetLoading true;
                Reconciler.SetSignatures ["s1"%string];
                Reconciler.SetLoading false;
                Reconciler.SetTimeout 1000 ] |}.
Proof. vm_compute. reflexivity. Qed.

(** ** The payment session *)

Section SessionFacts.
Import Rpc Session.


Lemma checkTransaction_cases ans a :
  (sufficient ans
   /\ checkTransaction ans a = navigate "/confirmed" true (setStatus Confirmed a))
  \/ (~ sufficient ans
      /\ sess (checkTransaction ans a) = sess a
      /\ routes (checkTransaction ans a) = routes a).
Proof.
  destruct ans as [| |sig [[st|]|]]; cbn;
    try (right; split; [intros (s & t & E & _); discriminate | now split]).
  destruct (confirmationStatus st) as [[| |]|] eqn:E.
  - right. split; [|now split].
    intros (s & t & [= _ <-] & [H|H]); congruence.
  - left. split; [|reflexivity]. exists sig, st. auto.
  - left. split; [|reflexivity]. exists sig, st. auto.
  - right. split; [|now split].
    intros (s & t & [= _ <-] & [H|H]); congruence.
Qed.

(** C2. The status becomes Confirmed only through a poll of the watcher
    whose fetched confirmation status, for the signature found, is
    "confirmed" or "finalized": no other operation writes Confirmed.  On
    every other answer (the reference is not found, a call fails, the status
    is absent or below "confirmed") the poll leaves the session as it is, so
    a pending session stays pending. *)
Theorem watcher_confirms_only_when_sufficient :
  (forall (op : operation) (a : app),
      status (sess (step op a)) = Confirmed ->
      status (sess a) = Confirmed
      \/ exists ans, op = Settle ans /\ sufficient ans)
  /\ (forall (ans : answer) (a : app),
      ~ sufficient ans -> sess (step (Settle ans) a) = sess a)
  /\ (forall (ans : answer) (a : app),
      ~ sufficient ans -> status (sess a) = Pending ->
      status (sess (step (Settle ans) a)) = Pending).
Proof.
  assert (K : forall ans a,
             ~ sufficient ans -> sess (step (Settle ans) a) = sess a).
  { intros ans a N. unfold step, settle. cbn [watch sess].
    destruct (inflight a) as [|r rest]; [reflexivity|].
    destruct (checkTransaction_cases ans
                {| sess := sess a; routes := routes a; errors := errors a;
                   interval := interval a; inflight := rest |})
      as [[S _]|[_ [E _]]]; [contradiction | exact E]. }
  split; [|split].
  - intros op a. destruct op as [x|x|key| | |ans]; cbn [step watch sess].
    + cbn. auto.
    + cbn. auto.
    + unfold generate.
      destruct (isNew (status (sess a))), (reference (sess a)); cbn; auto;
        discriminate.
    + cbn. discriminate.
    + unfold tick. destruct (interval a); cbn; auto.
    + intros H.
      destruct (checkTransaction_cases ans a) as [[S _]|[N _]];
        [right; eauto|].
      left. rewrite <- (K ans a N). exact H.
  - exact K.
  - intros ans a N P. now rewrite (K ans a N).
Qed.

(** C5, as amended.  [generate] and the watcher (its timer and its polls)
    never change [amount] or [memo]; [setAmount] and [setMemo] replace the
    one they name, and only that one, whatever the status; [reset] clears
    both. *)
Theorem amount_memo_writers (op : operation) (a : app) :
  match op with
  | SetAmount x =>
      amount (sess (step op a)) = x /\ memo (sess (step op a)) = memo (sess a)
  | SetMemo x =>
      amount (sess (step op a)) = amount (sess a) /\ memo (sess (step op a)) = x
  | Reset =>
      amount (sess (step op a)) = None /\ memo (sess (step op a)) = None
  | Generate _ | Tick | Settle _ =>
      amount (sess (step op a)) = amount (sess a)
      /\ memo (sess (step op a)) = memo (sess a)
  end.
Proof.
  destruct op as [x|x|key| | |ans]; cbn; try (split; reflexivity).
  - unfold generate.
    destruct (isNew (status (sess a))), (reference (sess a));
      split; reflexivity.
  - unfold tick. destruct (interval a); split; reflexivity.
  - unfold settle. destruct (inflight a) as [|r rest]; [split; reflexivity|].
    destruct ans as [| |sig [[st|]|]]; cbn; try (split; reflexivity).
    destruct (confirmationStatus st) as [[| |]|]; split; reflexivity.
Qed.

(** C7. [generate] changes nothing unless the status is New and there is
    no reference; when both hold, the session afterwards has the freshly
    generated key as its reference and the status Pending (and the page
    moves to "/pending"). *)
Theorem generate_contract (key : PublicKey) (a : app) :
  (status (sess a) = New /\ reference (sess a) = None ->
   reference (sess (generate key a)) = Some key
   /\ status (sess (generate key a)) = Pending
   /\ amount (sess (generate key a)) = amount (sess a)
   /\ memo (sess (generate key a)) = memo (sess a)
   /\ routes (generate key a)
      = routes a ++ [{| path := "/pending"; replace := false |}])
  /\ (~ (status (sess a) = New /\ reference (sess a) = None) ->
      generate key a = a).
Proof.
  unfold generate. split.
  - intros [Hs Hr]. rewrite Hs, Hr. cbn. repeat split; reflexivity.
  - intros N. destruct (status (sess a)) eqn:Hs; cbn; try reflexivity.
    destruct (reference (sess a)) eqn:Hr; [reflexivity|].
    exfalso. apply N. now split.
Qed.

End SessionFacts.


Example checkout_waiting :
  Checkout.waiting
  = {| Session.sess :=
         {| Session.amount := Some Checkout.price;
            Session.memo := None;
            Session.reference := Some Checkout.key;
            Session.status := Session.Pending |};
       Session.routes :=
         [{| Session.path := "/pending"; Session.replace := false |}];
       Session.errors := 0;
       Session.interval := Some Checkout.key;
       Session.inflight := [] |}.
Proof. reflexivity. Qed.

(** Five polls in a row that do not find the reference: still pending,
    nothing written to the console. *)
Example checkout_not_found_five_times :
  Session.steps
    [Session.Tick; Session.Settle Session.NotFound;
     Session.Tick; Session.Settle Session.NotFound;
     Session.Tick; Session.Settle Session.NotFound;
     Session.Tick; Session.Settle Session.NotFound;
     Session.Tick; Session.Settle Session.NotFound] Checkout.waiting
  = Checkout.waiting.
Proof. reflexivity. Qed.

Example checkout_processed_then_confirmed :
  Session.status
    (Session.sess
       (Session.steps [Session.Tick; Session.Settle Checkout.processing]
                      Checkout.waiting)) = Session.Pending
  /\ Session.status
       (Session.sess
          (Session.steps [Session.Tick; Session.Settle Checkout.processing;
                          Session.Tick; Session.Settle Checkout.paid]
                         Checkout.waiting)) = Session.Confirmed.
Proof. split; reflexivity. Qed.

(** C4: the code at the failing input.  The poll that was pending when the
    session was reset still publishes: after the reset has returned the
    session to New (and cleared the interval) the answered poll writes the
    status Confirmed and navigates to "/confirmed".  A poll that was pending
    when the component was unmounted navigates all the same. *)
Theorem stale_poll_publishes_after_reset :
  Session.interval
    (Session.steps [Session.Tick; Session.Reset] Checkout.waiting) = None
  /\ Session.sess
       (Session.steps [Session.Tick; Session.Reset] Checkout.waiting)
     = {| Session.amount := None; Session.memo := None;
          Session.reference := None; Session.status := Session.New |}
  /\ Session.sess Checkout.resetDuringPoll
     = {| Session.amount := None; Session.memo := None;
          Session.reference := None; Session.status := Session.Confirmed |}
  /\ Session.routes Checkout.resetDuringPoll
     = [ {| Session.path := "/pending"; Session.replace := false |};
         {| Session.path := "/new"; Session.replace := true |};
         {| Session.path := "/confirmed"; Session.replace := true |} ]
  /\ Session.interval Checkout.unmountDuringPoll = None
  /\ last (Session.routes Checkout.unmountDuringPoll)
          {| Session.path := ""; Session.replace := false |}
     = {| Session.path := "/confirmed"; Session.replace := true |}.
Proof. repeat split; reflexivity. Qed.

(** C5, as stated, fails: on a pending session [setAmount] changes the
    amount. *)
Lemma amount_changes_while_pending :
  Session.status (Session.sess Checkout.waiting) <> Session.New
  /\ Session.isReset (Session.SetAmount None) = false
  /\ Session.amount
       (Session.sess (Session.step (Session.SetAmount None) Checkout.waiting))
     <> Session.amount (Session.sess Checkout.waiting).
Proof. repeat split; discriminate. Qed.

(** * Further properties *)

(** ** The retry combinator: time spent, and what it leaves alone *)

Section SchedulerFrame.
Variable W : Type.
Variable delay : Z -> W -> W.
Variable fn : W -> bool * W.

(** Whatever the action and the sleeps preserve, the loop preserves. *)
Lemma attempts_preserves (P : W -> Prop) :
  (forall w, P w -> P (snd (fn w))) ->
  (forall ms w, P w -> P (delay ms w)) ->
  forall fuel i maxRetries initialDelay w r,
    P w ->
    Backoff.attempts delay fn fuel i maxRetries initialDelay w = Some r ->
    P (snd r).
Proof.
  intros Hfn Hdelay.
  induction fuel as [|fuel IH]; intros i maxRetries initialDelay w r Hw H;
    rewrite attempts_unfold in H;
    destruct (Z.ltb_spec i maxRetries);
    try (injection H as <-; exact Hw);
    pose proof (Hfn w Hw) as Hw1;
    destruct (fn w) as [[|] w1]; cbn [snd] in Hw1;
    try (injection H as <-; exact Hw1);
    destruct (Z.eqb_spec i (maxRetries - 1));
    try (injection H as <-; exact Hw1).
  - discriminate.
  - eapply IH; [|exact H]. now apply Hdelay.
Qed.


(** A call returns, and keeps what every invocation and every sleep keep. *)
Lemma backoff_preserves (P : W -> Prop)
  (Hfn : forall w, P w -> P (snd (fn w)))
  (Hdelay : forall ms w, P w -> P (delay ms w))
  (maxRetries initialDelay : Z) (w : W) (Hw : P w) :
  exists b w',
    Backoff.exponentialBackoff delay fn maxRetries initialDelay w
    = Some (b, w')
    /\ P w'.
Proof.
  destruct (exponentialBackoff_total delay fn maxRetries initialDelay w)
    as [[b w'] H].
  exists b, w'. split; [exact H|].
  exact (@attempts_preserves P Hfn Hdelay _ _ _ _ _ _ Hw H).
Qed.

(** X2. A call of [exponentialBackoff] returns, and it changes the world
    only through the action and the sleeps: a property that every
    invocation and every sleep preserves holds after the call, whatever the
    outcomes and the number of attempts. *)
Theorem exponentialBackoff_preserves (P : W -> Prop)
  (Hfn : forall w, P w -> P (snd (fn w)))
  (Hdelay : forall ms w, P w -> P (delay ms w))
  (maxRetries initialDelay : Z) (w : W) (Hw : P w) :
  exists b w',
    Backoff.exponentialBackoff delay fn maxRetries initialDelay w
    = Some (b, w')
    /\ P w'.
Proof.
  destruct (exponentialBackoff_total delay fn maxRetries initialDelay w)
    as [[b w'] H].
  exists b, w'. split; [exact H|].
  unfold Backoff.exponentialBackoff in H.
  exact (@attempts_preserves P Hfn Hdelay _ _ _ _ _ _ Hw H).
Qed.

End SchedulerFrame.

Lemma total_app l1 l2 :
  Measure.total (l1 ++ l2) = Measure.total l1 + Measure.total l2.
Proof.
  unfold Measure.total. induction l1 as [|x l1 IH]; cbn; [reflexivity|].
  rewrite IH. lia.
Qed.

Lemma total_failed_rounds initialDelay k :
  forall from,
    0 <= from ->
    Measure.total (Backoff.sleeps (Backoff.failed_rounds initialDelay from k))
    = initialDelay * 2 ^ from * (2 ^ Z.of_nat k - 1).
Proof.
  induction k as [|k IH]; intros from Hfrom.
  - cbn. lia.
  - cbn [Backoff.failed_rounds]. unfold Backoff.sleeps in *.
    cbn [flat_map app]. unfold Measure.total in *. cbn [fold_right].
    rewrite IH by lia.
    rewrite Nat2Z.inj_succ, !Z.pow_succ_r, Z.pow_add_r by lia.
    ring.
Qed.

(** X1. A call whose [maxRetries >= 1] invocations all fail has slept
    [initialDelay * (2^(maxRetries-1) - 1)] ms in all: fifteen times the
    base delay for the five attempts the providers ask for. *)
Theorem exponentialBackoff_time_slept
  (action : nat -> bool) (maxRetries initialDelay : Z)
  (Hn : 1 <= maxRetries)
  (Hfail : forall j : nat, Z.of_nat j < maxRetries -> action j = false) :
  exists p,
    Backoff.observe action maxRetries initialDelay = Some (false, p)
    /\ Measure.total (Backoff.sleeps (Backoff.trace p))
       = initialDelay * (2 ^ (maxRetries - 1) - 1).
Proof.
  rewrite observe_promised. unfold Backoff.promised.
  cbn [Backoff.served Backoff.blank Backoff.trace].
  assert (E : Backoff.failures_before action 0 (Z.to_nat maxRetries) = None).
  { apply failures_before_none. intros j Hj. apply Hfail. lia. }
  rewrite E. eexists. split; [reflexivity|]. cbn [Backoff.trace app].
  destruct (Z.to_nat maxRetries) as [|m] eqn:Em; [lia|].
  rewrite sleeps_app, total_app, total_failed_rounds by lia.
  replace (Z.of_nat m) with (maxRetries - 1) by lia.
  cbn. lia.
Qed.

Lemma exponentialBackoff_time_slept_witness :
  exists p,
    Backoff.observe (fun _ => false) 5 1000 = Some (false, p)
    /\ Measure.total (Backoff.sleeps (Backoff.trace p)) = 15000.
Proof.
  apply (@exponentialBackoff_time_slept (fun _ => false) 5 1000).
  - lia.
  - reflexivity.
Defined.

Lemma exponentialBackoff_preserves_witness :
  exists b p,
    Backoff.exponentialBackoff Backoff.probe_delay
      (Backoff.probe_fn (fun n => Nat.eqb n 2)) 5 1000 Backoff.blank
    = Some (b, p)
    /\ Backoff.invocations (Backoff.trace p) = Backoff.served p.
Proof.
  apply (@exponentialBackoff_preserves Backoff.probe Backoff.probe_delay
           (Backoff.probe_fn (fun n => Nat.eqb n 2))
           (fun p => Backoff.invocations (Backoff.trace p) = Backoff.served p)).
  - intros w H. unfold Backoff.probe_fn.
    cbn [snd Backoff.trace Backoff.served].
    rewrite invocations_app, H. cbn. lia.
  - intros ms w H. unfold Backoff.probe_delay.
    cbn [Backoff.trace Backoff.served].
    rewrite invocations_app, H. cbn. lia.
  - reflexivity.
Defined.

(** ** The matching rule: exceptions, order, alignment, modes *)

Section ExtractionMore.
Import BigNum Rpc Js Reconciler.
Variable recipient : PublicKey.
Variable associatedToken : option PublicKey.
Variable MAX_CONFIRMATIONS : Z.
Variable bigNumberOfString : string -> BigNumber.

Local Abbreviation extract' :=
  (extract recipient associatedToken MAX_CONFIRMATIONS bigNumberOfString).
Local Abbreviation reconcile' :=
  (reconcile recipient associatedToken MAX_CONFIRMATIONS bigNumberOfString).
Local Abbreviation mapSignatures' :=
  (mapSignatures recipient associatedToken MAX_CONFIRMATIONS
                 bigNumberOfString).

Lemma bind_Throw A B (o : outcome A) (k : A -> outcome B) :
  bind o k = Throw -> o = Throw \/ exists a, o = Emit a /\ k a = Throw.
Proof. destruct o; cbn; eauto; discriminate. Qed.

Lemma require_not_Throw c : require c <> Throw.
Proof. destruct c; discriminate. Qed.

Lemma present_not_Throw A (x : option A) : present x <> Throw.
Proof. destruct x; discriminate. Qed.

Lemma tokenAmountString_not_Throw l k : tokenAmountString l k <> Throw.
Proof.
  unfold tokenAmountString. destruct l as [l|]; [|discriminate].
  destruct (find _ l); [apply present_not_Throw | discriminate].
Qed.

(** The mode branches never raise: [info.source] is read only after
    [info?.destination] was found equal to a string. *)
Lemma balances_not_Throw tx m program type info :
  balances recipient associatedToken bigNumberOfString tx m program type info
  <> Throw.
Proof.
  unfold balances. destruct associatedToken as [ata|];
    destruct info as [i|]; cbn;
    repeat match goal with
           | |- context [require ?c] => destruct c; cbn
           | |- context [tokenAmountString ?l ?k] =>
               let E := fresh in
               pose proof (@tokenAmountString_not_Throw l k) as E;
               destruct (tokenAmountString l k); cbn; try contradiction;
               clear E
           end.
  all: try discriminate.
Qed.

(** X3. The callback raises an exception for exactly one shape of input: a
    transaction with metadata, a non-zero block time and a status with a
    confirmation level, whose single instruction is a parsed instruction
    without its [parsed] part. *)
Theorem extract_throws_iff parsedTransactions signatureStatuses sig idx :
  extract' parsedTransactions signatureStatuses sig idx = Throw
  <-> exists tx m st ts s program,
      indexNullable parsedTransactions idx = Some tx
      /\ meta tx = Some m
      /\ indexNullable signatureStatuses idx = Some st
      /\ truthyNumber (blockTime tx) = Some ts
      /\ confirmationStatus st = Some s
      /\ instructions (message (transaction tx))
         = [ParsedInstruction program None].
Proof.
  unfold extract. split.
  - destruct (indexNullable parsedTransactions idx) as [tx|];
      cbn [bind present]; [|discriminate].
    destruct (meta tx) as [m|] eqn:Em; cbn [bind present]; [|discriminate].
    destruct (indexNullable signatureStatuses idx) as [st|];
      cbn [bind present]; [|discriminate].
    destruct (truthyNumber (blockTime tx)) as [ts|] eqn:Et;
      cbn [bind present]; [|discriminate].
    destruct (confirmationStatus st) as [s|] eqn:Es;
      cbn [bind present]; [|discriminate].
    destruct (instructions (message (transaction tx))) as [|ins [|? ?]] eqn:Ei;
      try discriminate.
    destruct ins as [program [p|]|]; cbn [bind deref]; try discriminate.
    + intros H. exfalso.
      pose proof (@balances_not_Throw tx m program (Rpc.type p) (Rpc.info p))
        as N.
      destruct (balances _ _ _ tx m program (Rpc.type p) (Rpc.info p))
        as [[pre post]| |]; cbn in H; try discriminate; [|contradiction].
      destruct (lt post pre); discriminate.
    + intros _. exists tx, m, st, ts, s, program.
      repeat split; assumption || reflexivity.
  - intros (tx & m & st & ts & s & program & H1 & H2 & H3 & H4 & H5 & H6).
    rewrite H1. cbn [bind present]. rewrite H2. cbn [bind present].
    rewrite H3. cbn [bind present]. rewrite H4. cbn [bind present].
    rewrite H5. cbn [bind present]. rewrite H6. reflexivity.
Qed.

(** The mapped array, entry by entry. *)
Lemma mapSignatures_nth parsedTransactions signatureStatuses sigs :
  forall at_ n,
    nth_error (mapSignatures' parsedTransactions signatureStatuses at_ sigs) n
    = option_map
        (fun sig => extract' parsedTransactions signatureStatuses sig
                             (at_ + Z.of_nat n))
        (nth_error sigs n).
Proof.
  induction sigs as [|s rest IH]; intros at_ n.
  - destruct n; reflexivity.
  - destruct n as [|n]; cbn [mapSignatures nth_error option_map].
    + now rewrite Z.add_0_r.
    + rewrite IH. destruct (nth_error rest n); cbn; [|reflexivity].
      do 2 f_equal. lia.
Qed.

Lemma index_nth A (xs : list A) (n : nat) :
  Js.index xs (Z.of_nat n) = nth_error xs n.
Proof.
  unfold Js.index. destruct (Z.ltb_spec (Z.of_nat n) 0); [lia|].
  now rewrite Nat2Z.id.
Qed.

Lemma collect_None mapped : collect mapped = None <-> In Throw mapped.
Proof.
  induction mapped as [|o rest IH]; cbn.
  - split; [discriminate | contradiction].
  - destruct o as [t| |].
    + destruct (collect rest); cbn.
      * split; [discriminate|]. intros [H|H]; [discriminate|].
        apply IH in H. discriminate.
      * split; [|reflexivity]. intros _. right. now apply IH.
    + rewrite IH. split; [auto | intros [H|H]; [discriminate | exact H]].
    + split; [auto | reflexivity].
Qed.

(** X4. One exception aborts the whole pass: nothing is collected exactly
    when the callback raises for the signature at some position of the
    list. *)
Theorem reconcile_aborts_iff sigs parsedTransactions signatureStatuses :
  reconcile' sigs parsedTransactions signatureStatuses = None
  <-> exists idx sig,
      Js.index sigs idx = Some sig
      /\ extract' parsedTransactions signatureStatuses sig idx = Throw.
Proof.
  unfold reconcile. rewrite collect_None. split.
  - intros H. apply In_nth_error in H. destruct H as [n H].
    rewrite mapSignatures_nth in H.
    destruct (nth_error sigs n) as [sig|] eqn:E; [|discriminate].
    cbn in H. injection H as H.
    exists (Z.of_nat n), sig. now rewrite index_nth.
  - intros (idx & sig & Hi & Ht). unfold Js.index in Hi.
    destruct (Z.ltb_spec idx 0); [discriminate|].
    apply (nth_error_In _ (Z.to_nat idx)).
    rewrite mapSignatures_nth, Hi. cbn. rewrite Z2Nat.id by lia.
    now rewrite <- Ht.
Qed.

Lemma extract_signature parsedTransactions signatureStatuses sig idx r :
  extract' parsedTransactions signatureStatuses sig idx = Emit r ->
  signature r = sig.
Proof.
  intros H. apply extract_inv in H.
  destruct H as (tx & m & st & ts & s & program & p & pre & post & H).
  now destruct H as (_ & _ & _ & _ & _ & _ & _ & _ & ->).
Qed.

Lemma collect_subsequence parsedTransactions signatureStatuses sigs :
  forall at_ l,
    collect (mapSignatures' parsedTransactions signatureStatuses at_ sigs)
    = Some l ->
    Measure.subsequence (map signature l) sigs.
Proof.
  induction sigs as [|s rest IH]; intros at_ l H; cbn in H.
  - injection H as <-. constructor.
  - destruct (extract' parsedTransactions signatureStatuses s at_)
      as [r| |] eqn:E; [| |discriminate].
    + destruct (collect _) as [l'|] eqn:El; [|discriminate].
      injection H as <-. cbn [map].
      rewrite (extract_signature _ _ _ _ E).
      apply Measure.sub_keep. eapply IH. exact El.
    + apply Measure.sub_skip. eapply IH. exact H.
Qed.

Lemma subsequence_length A (l m : list A) :
  Measure.subsequence l m -> (List.length l <= List.length m)%nat.
Proof. induction 1; cbn; lia. Qed.

(** X5. The published records keep the order of the signature list: their
    signatures are the list's with some left out, so there are never more
    records than signatures. *)
Theorem reconcile_keeps_order sigs parsedTransactions signatureStatuses l :
  reconcile' sigs parsedTransactions signatureStatuses = Some l ->
  Measure.subsequence (map signature l) sigs
  /\ (List.length l <= List.length sigs)%nat.
Proof.
  intros H. apply collect_subsequence in H. split; [exact H|].
  apply subsequence_length in H. now rewrite length_map in H.
Qed.

End ExtractionMore.

(** ** The matching rule: where a record's fields and amount come from *)

Section ExtractionSources.
Import BigNum Rpc Js Reconciler.
Variable recipient : PublicKey.
Variable MAX_CONFIRMATIONS : Z.
Variable bigNumberOfString : string -> BigNumber.

Lemma truthyNumber_Some n z : truthyNumber n = Some z -> n = Some z /\ z <> 0.
Proof.
  destruct n as [c|]; cbn; [|discriminate].
  destruct (Z.eqb_spec c 0); [discriminate|]. intros [= <-]. auto.
Qed.

Lemma truthyString_Some o s :
  truthyString o = Some s -> o = Some s /\ s <> ""%string.
Proof.
  destruct o as [c|]; cbn; [|discriminate].
  destruct (String.eqb_spec c ""); [discriminate|]. intros [= <-]. auto.
Qed.

Lemma findIndexFrom_found A (f : A -> bool) xs :
  forall at_ k,
    findIndexFrom f at_ xs = k ->
    0 <= at_ ->
    k <> -1 ->
    at_ <= k
    /\ exists x, nth_error xs (Z.to_nat (k - at_)) = Some x /\ f x = true.
Proof.
  induction xs as [|x rest IH]; intros at_ k H Hat Hk; cbn in H; [lia|].
  destruct (f x) eqn:Ef.
  - subst k. split; [lia|]. exists x. now rewrite Z.sub_diag.
  - destruct (IH _ _ H) as (Hle & y & Hy & Hfy); [lia | exact Hk |].
    split; [lia|]. exists y. split; [|exact Hfy].
    replace (Z.to_nat (k - at_)) with (S (Z.to_nat (k - (at_ + 1)))) by lia.
    exact Hy.
Qed.

Lemma findIndex_found A (f : A -> bool) xs k :
  findIndex f xs = k ->
  k <> -1 ->
  0 <= k /\ exists x, Js.index xs k = Some x /\ f x = true.
Proof.
  intros H Hk. destruct (findIndexFrom_found f xs H) as (Hle & x & Hx & Hf);
    [lia | exact Hk |].
  split; [exact Hle|]. exists x. split; [|exact Hf].
  unfold Js.index. destruct (Z.ltb_spec k 0); [lia|].
  now rewrite Z.sub_0_r in Hx.
Qed.

Ltac invert_bind H :=
  let a := fresh "v" in
  let E := fresh "E" in
  apply bind_Emit in H; destruct H as (a & E & H).

(** Native mode: the instruction and the two balances behind an emitted
    pair. *)
Lemma balances_native_inv tx m program type info pre post :
  balances recipient None bigNumberOfString tx m program type info
  = Emit (pre, post) ->
  program = "system"%string
  /\ type = Some "transfer"%string
  /\ exists k key,
      k = findIndex (fun a => String.eqb (pubkey a) recipient)
                    (accountKeys (message (transaction tx)))
      /\ 0 <= k
      /\ Js.index (accountKeys (message (transaction tx))) k = Some key
      /\ pubkey key = recipient
      /\ pre = div (ofNumber (Js.index (preBalances m) k)) LAMPORTS_PER_SOL
      /\ post = div (ofNumber (Js.index (postBalances m) k)) LAMPORTS_PER_SOL.
Proof.
  unfold balances. intros H.
  invert_bind H. apply require_Emit, andb_true_iff in E.
  destruct E as [Ep Et]. apply String.eqb_eq in Ep. apply strictEq_true in Et.
  invert_bind H. invert_bind H. invert_bind H. invert_bind H.
  apply require_Emit, negb_true_iff in E2.
  destruct (Z.eqb_spec
              (findIndex (fun a => String.eqb (pubkey a) recipient)
                         (accountKeys (message (transaction tx)))) (-1))
    as [|Hk]; [discriminate|].
  destruct (findIndex_found _ _ eq_refl Hk) as (H0 & key & Hkey & Hf).
  apply String.eqb_eq in Hf. injection H as <- <-.
  split; [exact Ep|]. split; [exact Et|].
  eexists _, key. repeat split; try reflexivity; assumption.
Qed.

(** A token balance that passes [!balance?.uiTokenAmount.uiAmountString]. *)
Lemma tokenAmountString_Emit l k s :
  tokenAmountString l k = Emit s ->
  exists entries entry,
    l = Some entries
    /\ find (fun x => accountIndex x =? k) entries = Some entry
    /\ uiAmountString (uiTokenAmount entry) = Some s
    /\ s <> ""%string.
Proof.
  unfold tokenAmountString. destruct l as [entries|]; [|discriminate].
  destruct (find _ entries) as [entry|] eqn:Ef; [|discriminate].
  intros H. apply present_Emit, truthyString_Some in H. destruct H as [H1 H2].
  exists entries, entry. auto.
Qed.

(** Token mode: the instruction and the two balance entries behind an
    emitted pair. *)
Lemma balances_token_inv ata tx m program type info pre post :
  balances recipient (Some ata) bigNumberOfString tx m program type info
  = Emit (pre, post) ->
  program = "spl-token"%string
  /\ (type = Some "transfer"%string \/ type = Some "transferChecked"%string)
  /\ exists k key sPre sPost,
      k = findIndex (fun a => String.eqb (pubkey a) ata)
                    (accountKeys (message (transaction tx)))
      /\ 0 <= k
      /\ Js.index (accountKeys (message (transaction tx))) k = Some key
      /\ pubkey key = ata
      /\ tokenAmountString (preTokenBalances m) k = Emit sPre
      /\ tokenAmountString (postTokenBalances m) k = Emit sPost
      /\ pre = bigNumberOfString sPre
      /\ post = bigNumberOfString sPost.
Proof.
  unfold balances. intros H.
  invert_bind H. apply require_Emit, andb_true_iff in E.
  destruct E as [Ep Et]. apply String.eqb_eq in Ep.
  apply orb_true_iff in Et. rewrite !strictEq_true in Et.
  invert_bind H. invert_bind H. invert_bind H. invert_bind H.
  apply require_Emit, negb_true_iff in E2.
  destruct (Z.eqb_spec
              (findIndex (fun a => String.eqb (pubkey a) ata)
                         (accountKeys (message (transaction tx)))) (-1))
    as [|Hk]; [discriminate|].
  destruct (findIndex_found _ _ eq_refl Hk) as (H0 & key & Hkey & Hf).
  apply String.eqb_eq in Hf.
  invert_bind H. invert_bind H. injection H as <- <-.
  split; [exact Ep|]. split; [exact Et|].
  eexists _, key, v4, v5. repeat split; try reflexivity; assumption.
Qed.

Lemma lamports_le (a b : Z) (L : positive) :
  (Qred (inject_Z a / inject_Z (Z.pos L))
   <= Qred (inject_Z b / inject_Z (Z.pos L)))%Q <-> a <= b.
Proof.
  rewrite !Qred_correct. unfold Qdiv, Qle, Qmult, Qinv, inject_Z. cbn. nia.
Qed.

Lemma lamports_minus (a b : Z) (L : positive) :
  (Qred (Qred (inject_Z b / inject_Z (Z.pos L))
         - Qred (inject_Z a / inject_Z (Z.pos L)))
   == inject_Z (b - a) / inject_Z (Z.pos L))%Q.
Proof.
  rewrite !Qred_correct. unfold Z.sub.
  rewrite inject_Z_plus, inject_Z_opp. field.
  unfold Qeq, inject_Z; cbn. lia.
Qed.

(** The member of the published list, with the position it came from. *)
Lemma reconcile_member_at ata sigs parsedTransactions signatureStatuses l r :
  reconcile recipient ata MAX_CONFIRMATIONS bigNumberOfString
            sigs parsedTransactions signatureStatuses = Some l ->
  In r l ->
  exists idx sig,
    Js.index sigs idx = Some sig
    /\ extract recipient ata MAX_CONFIRMATIONS bigNumberOfString
               parsedTransactions signatureStatuses sig idx = Emit r.
Proof.
  unfold reconcile. intros H Hin.
  pose proof (@collect_members _ _ _ H Hin) as Hm.
  apply In_nth_error in Hm. destruct Hm as [n Hn].
  rewrite mapSignatures_nth in Hn.
  destruct (nth_error sigs n) as [sig|] eqn:E; [|discriminate].
  cbn in Hn. injection Hn as Hn.
  exists (Z.of_nat n), sig. now rewrite index_nth.
Qed.

(** X6. A published record is built from the entries found at one and the
    same position of the three arrays: its signature is the one at that
    position of the signature list, its timestamp is the (non-zero) block
    time of the transaction there, its error is that transaction's [err],
    and its status is the confirmation level of the status there. *)
Theorem reconcile_alignment
  ata sigs parsedTransactions signatureStatuses l r :
  reconcile recipient ata MAX_CONFIRMATIONS bigNumberOfString
            sigs parsedTransactions signatureStatuses = Some l ->
  In r l ->
  exists idx tx m st,
    Js.index sigs idx = Some (signature r)
    /\ indexNullable parsedTransactions idx = Some tx
    /\ meta tx = Some m
    /\ indexNullable signatureStatuses idx = Some st
    /\ blockTime tx = Some (timestamp r)
    /\ timestamp r <> 0
    /\ error r = err m
    /\ confirmationStatus st = Some (status r).
Proof.
  intros Hrec Hin.
  destruct (@reconcile_member_at _ _ _ _ _ _ Hrec Hin) as (idx & sig & Hs & H).
  apply extract_inv in H.
  destruct H as (tx & m & st & ts & s & program & p & pre & post
                 & Htx & Hm & Hst & Hts & Hcs & Hins & Hbal & Hlt & ->).
  apply truthyNumber_Some in Hts. destruct Hts as [Hts Hnz].
  exists idx, tx, m, st. cbn. repeat split; assumption.
Qed.

(** X7. In native mode a published record comes from a transaction whose
    single instruction is a "system" "transfer" and whose account keys hold
    the recipient.  When the recipient's two lamport balances are present
    and are safe integers, the balance has not gone down and the record's
    amount is the balance after the transaction minus the one before,
    divided by [LAMPORTS_PER_SOL]. *)
Theorem native_amount_in_sol
  sigs parsedTransactions signatureStatuses l r :
  reconcile recipient None MAX_CONFIRMATIONS bigNumberOfString
            sigs parsedTransactions signatureStatuses = Some l ->
  In r l ->
  exists idx tx m p k key,
    indexNullable parsedTransactions idx = Some tx
    /\ meta tx = Some m
    /\ instructions (message (transaction tx))
       = [ParsedInstruction "system" (Some p)]
    /\ Rpc.type p = Some "transfer"%string
    /\ Js.index (accountKeys (message (transaction tx))) k = Some key
    /\ pubkey key = recipient
    /\ forall a b,
        Js.index (preBalances m) k = Some a ->
        Js.index (postBalances m) k = Some b ->
        isSafeInteger a ->
        isSafeInteger b ->
        a <= b
        /\ exists q,
            amount r = Finite q
            /\ (q == inject_Z (b - a) / inject_Z (Z.pos LAMPORTS_PER_SOL))%Q.
Proof.
  intros Hrec Hin.
  destruct (@reconcile_member_at _ _ _ _ _ _ Hrec Hin) as (idx & sig & Hs & H).
  apply extract_inv in H.
  destruct H as (tx & m & st & ts & s & program & p & pre & post
                 & Htx & Hm & Hst & Hts & Hcs & Hins & Hbal & Hlt & ->).
  apply balances_native_inv in Hbal.
  destruct Hbal as (-> & Hty & k & key & Hk & H0 & Hkey & Hpk & -> & ->).
  exists idx, tx, m, p, k, key. cbn [amount].
  repeat (split; [assumption || reflexivity|]).
  intros a b Ha Hb _ _. rewrite Ha, Hb in *. cbn [ofNumber div lt minus] in *.
  apply Qlt_bool_false in Hlt. apply lamports_le in Hlt.
  split; [exact Hlt|]. eexists. split; [reflexivity|].
  apply lamports_minus.
Qed.

(** X8. In token mode a published record comes from a transaction whose
    single instruction is an "spl-token" "transfer" or "transferChecked"
    and whose account keys hold the token account at some index [k]; the
    pre and post token balances each have an entry for account index [k]
    with a non-empty display amount, and the record's amount is the post
    amount minus the pre amount, both read by bignumber.js. *)
Theorem token_amount_in_units
  ata sigs parsedTransactions signatureStatuses l r :
  reconcile recipient (Some ata) MAX_CONFIRMATIONS bigNumberOfString
            sigs parsedTransactions signatureStatuses = Some l ->
  In r l ->
  exists idx tx m p k key preEntries preEntry postEntries postEntry sPre sPost,
    indexNullable parsedTransactions idx = Some tx
    /\ meta tx = Some m
    /\ instructions (message (transaction tx))
       = [ParsedInstruction "spl-token" (Some p)]
    /\ (Rpc.type p = Some "transfer"%string
        \/ Rpc.type p = Some "transferChecked"%string)
    /\ Js.index (accountKeys (message (transaction tx))) k = Some key
    /\ pubkey key = ata
    /\ preTokenBalances m = Some preEntries
    /\ find (fun x => accountIndex x =? k) preEntries = Some preEntry
    /\ uiAmountString (uiTokenAmount preEntry) = Some sPre
    /\ sPre <> ""%string
    /\ postTokenBalances m = Some postEntries
    /\ find (fun x => accountIndex x =? k) postEntries = Some postEntry
    /\ uiAmountString (uiTokenAmount postEntry) = Some sPost
    /\ sPost <> ""%string
    /\ amount r = minus (bigNumberOfString sPost) (bigNumberOfString sPre).
Proof.
  intros Hrec Hin.
  destruct (@reconcile_member_at _ _ _ _ _ _ Hrec Hin) as (idx & sig & Hs & H).
  apply extract_inv in H.
  destruct H as (tx & m & st & ts & s & program & p & pre & post
                 & Htx & Hm & Hst & Hts & Hcs & Hins & Hbal & Hlt & ->).
  apply balances_token_inv in Hbal.
  destruct Hbal as (-> & Hty & k & key & sPre & sPost
                    & Hk & H0 & Hkey & Hpk & HsPre & HsPost & -> & ->).
  apply tokenAmountString_Emit in HsPre, HsPost.
  destruct HsPre as (preEntries & preEntry & P1 & P2 & P3 & P4).
  destruct HsPost as (postEntries & postEntry & Q1 & Q2 & Q3 & Q4).
  exists idx, tx, m, p, k, key, preEntries, preEntry, postEntries, postEntry,
    sPre, sPost.
  cbn [amount]. repeat (split; [assumption || reflexivity|]). reflexivity.
Qed.

End ExtractionSources.

(** ** The matching rule: payments that are recorded *)

Section ExtractionComplete.
Import BigNum Rpc Js Reconciler.
Variable recipient : PublicKey.
Variable MAX_CONFIRMATIONS : Z.
Variable bigNumberOfString : string -> BigNumber.

Lemma strictEq_false a b : a <> Some b -> strictEq a b = false.
Proof.
  intros N. destruct (strictEq a b) eqn:E; [|reflexivity].
  apply strictEq_true in E. contradiction.
Qed.

Lemma truthyNumber_nonzero z : z <> 0 -> truthyNumber (Some z) = Some z.
Proof. intros N. cbn. destruct (Z.eqb_spec z 0); congruence. Qed.

Lemma truthyString_nonempty s :
  s <> ""%string -> truthyString (Some s) = Some s.
Proof. intros N. cbn. destruct (String.eqb_spec s ""); congruence. Qed.

(** The steps of the callback that do not depend on the mode. *)
Lemma extract_steps ata parsedTransactions signatureStatuses sig idx
      tx m st ts s program p pre post :
  indexNullable parsedTransactions idx = Some tx ->
  meta tx = Some m ->
  indexNullable signatureStatuses idx = Some st ->
  blockTime tx = Some ts ->
  ts <> 0 ->
  confirmationStatus st = Some s ->
  instructions (message (transaction tx))
  = [ParsedInstruction program (Some p)] ->
  balances recipient ata bigNumberOfString tx m program
           (Rpc.type p) (Rpc.info p) = Emit (pre, post) ->
  lt post pre = false ->
  extract recipient ata MAX_CONFIRMATIONS bigNumberOfString
          parsedTransactions signatureStatuses sig idx
  = Emit {| signature := sig;
            amount := minus post pre;
            timestamp := ts;
            error := err m;
            status := s;
            confirmations :=
              if isFinalized s then MAX_CONFIRMATIONS
              else orZero (Rpc.confirmations st) |}.
Proof.
  intros Htx Hm Hst Hts Hnz Hcs Hins Hbal Hlt. unfold extract.
  rewrite Htx. cbn [bind present]. rewrite Hm. cbn [bind present].
  rewrite Hst. cbn [bind present].
  rewrite Hts, (truthyNumber_nonzero Hnz). cbn [bind present].
  rewrite Hcs. cbn [bind present]. rewrite Hins. cbn [bind deref].
  rewrite Hbal. cbn [bind]. rewrite Hlt. reflexivity.
Qed.

(** X9. In native mode, a transaction with metadata, a non-zero block time
    and a status with a confirmation level, whose single instruction is a
    "system" "transfer" to the recipient from another source, is recorded
    whenever the recipient is among the account keys and its lamport
    balance, a safe integer before and after, has not gone down: the record
    carries the balance difference in SOL. *)
Theorem native_transfer_is_recorded
  parsedTransactions signatureStatuses sig idx tx m st ts s p i k a b :
  indexNullable parsedTransactions idx = Some tx ->
  meta tx = Some m ->
  indexNullable signatureStatuses idx = Some st ->
  blockTime tx = Some ts ->
  ts <> 0 ->
  confirmationStatus st = Some s ->
  instructions (message (transaction tx))
  = [ParsedInstruction "system" (Some p)] ->
  Rpc.type p = Some "transfer"%string ->
  Rpc.info p = Some i ->
  destination i = Some recipient ->
  source i <> Some recipient ->
  findIndex (fun key => String.eqb (pubkey key) recipient)
            (accountKeys (message (transaction tx))) = k ->
  k <> -1 ->
  Js.index (preBalances m) k = Some a ->
  Js.index (postBalances m) k = Some b ->
  isSafeInteger a ->
  isSafeInteger b ->
  a <= b ->
  extract recipient None MAX_CONFIRMATIONS bigNumberOfString
          parsedTransactions signatureStatuses sig idx
  = Emit {| signature := sig;
            amount := minus (div (Finite (inject_Z b)) LAMPORTS_PER_SOL)
                            (div (Finite (inject_Z a)) LAMPORTS_PER_SOL);
            timestamp := ts;
            error := err m;
            status := s;
            confirmations :=
              if isFinalized s then MAX_CONFIRMATIONS
              else orZero (Rpc.confirmations st) |}.
Proof.
  intros Htx Hm Hst Hts Hnz Hcs Hins Hty Hinfo Hdst Hsrc Hk Hk1 Ha Hb
         Hsafe_a Hsafe_b Hab.
  apply extract_steps with (tx := tx) (st := st) (program := "system"%string)
                           (p := p); try assumption.
  - unfold balances, toBase58. rewrite Hty, Hinfo, Hdst. cbn [strictEq].
    rewrite !String.eqb_refl. cbn [andb require bind deref].
    rewrite (strictEq_false Hsrc). cbn [negb require bind].
    rewrite Hk. destruct (Z.eqb_spec k (-1)); [contradiction|].
    cbn [negb require bind]. now rewrite Ha, Hb.
  - cbn [div lt]. apply Qlt_bool_false, lamports_le. exact Hab.
Qed.

(** X10. In token mode, a transaction with metadata, a non-zero block time
    and a status with a confirmation level, whose single instruction is an
    "spl-token" "transfer" or "transferChecked" to the token account from
    another source, is recorded whenever the token account is among the
    account keys at an index [k] for which both token balance arrays have an
    entry with a non-empty display amount, and the post amount is not less
    than the pre amount. *)
Theorem token_transfer_is_recorded
  ata parsedTransactions signatureStatuses sig idx tx m st ts s p i k
  preEntries preEntry postEntries postEntry sPre sPost :
  indexNullable parsedTransactions idx = Some tx ->
  meta tx = Some m ->
  indexNullable signatureStatuses idx = Some st ->
  blockTime tx = Some ts ->
  ts <> 0 ->
  confirmationStatus st = Some s ->
  instructions (message (transaction tx))
  = [ParsedInstruction "spl-token" (Some p)] ->
  Rpc.type p = Some "transfer"%string
  \/ Rpc.type p = Some "transferChecked"%string ->
  Rpc.info p = Some i ->
  destination i = Some ata ->
  source i <> Some ata ->
  findIndex (fun key => String.eqb (pubkey key) ata)
            (accountKeys (message (transaction tx))) = k ->
  k <> -1 ->
  preTokenBalances m = Some preEntries ->
  find (fun x => accountIndex x =? k) preEntries = Some preEntry ->
  uiAmountString (uiTokenAmount preEntry) = Some sPre ->
  sPre <> ""%string ->
  postTokenBalances m = Some postEntries ->
  find (fun x => accountIndex x =? k) postEntries = Some postEntry ->
  uiAmountString (uiTokenAmount postEntry) = Some sPost ->
  sPost <> ""%string ->
  lt (bigNumberOfString sPost) (bigNumberOfString sPre) = false ->
  extract recipient (Some ata) MAX_CONFIRMATIONS bigNumberOfString
          parsedTransactions signatureStatuses sig idx
  = Emit {| signature := sig;
            amount := minus (bigNumberOfString sPost) (bigNumberOfString sPre);
            timestamp := ts;
            error := err m;
            status := s;
            confirmations :=
              if isFinalized s then MAX_CONFIRMATIONS
              else orZero (Rpc.confirmations st) |}.
Proof.
  intros Htx Hm Hst Hts Hnz Hcs Hins Hty Hinfo Hdst Hsrc Hk Hk1
         P1 P2 P3 P4 Q1 Q2 Q3 Q4 Hlt.
  apply extract_steps with (tx := tx) (st := st)
                           (program := "spl-token"%string) (p := p);
    try assumption.
  unfold balances, toBase58. rewrite Hinfo, Hdst.
  assert (T : (strictEq (Rpc.type p) "transfer"
               || strictEq (Rpc.type p) "transferChecked")%bool = true).
  { apply orb_true_iff. rewrite !strictEq_true. exact Hty. }
  rewrite T. cbn [strictEq]. rewrite !String.eqb_refl.
  cbn [andb require bind deref].
  rewrite (strictEq_false Hsrc). cbn [negb require bind].
  rewrite Hk. destruct (Z.eqb_spec k (-1)); [contradiction|].
  cbn [negb require bind]. unfold tokenAmountString.
  rewrite P1, P2, P3, (truthyString_nonempty P4). cbn [present bind].
  rewrite Q1, Q2, Q3, (truthyString_nonempty Q4). reflexivity.
Qed.

End ExtractionComplete.

(** ** The polling loops under any ledger *)

Section LoopFacts.
Import Rpc Reconciler Outage Measure.
Variable recipient : PublicKey.
Variable associatedToken : option PublicKey.
Variable MAX_CONFIRMATIONS : Z.
Variable bigNumberOfString : string -> BigNum.BigNumber.
Variable arraysEqual :
  list TransactionSignature -> list TransactionSignature -> bool.

Local Abbreviation actionB' :=
  (actionB recipient associatedToken MAX_CONFIRMATIONS bigNumberOfString).
Local Abbreviation runB' :=
  (runB recipient associatedToken MAX_CONFIRMATIONS bigNumberOfString).


Lemma actionA_steady ledger : steady (actionA arraysEqual ledger).
Proof.
  intros [[sigs txs ld] ch cd n lg]. unfold actionA, await. cbn.
  destruct (ledger n) as [[|] [infos|]]; cbn;
    try destruct ch; cbn; rewrite ?timeouts_app; cbn;
    rewrite ?app_nil_r; auto.
Qed.

Lemma actionB_steady sigs ledger : steady (actionB' sigs ledger).
Proof.
  intros [[s txs ld] ch cd n lg]. unfold actionB, await. cbn.
  destruct (ledger n) as [[|] [[pts sts]|]]; cbn;
    try destruct ch; cbn;
    try destruct (reconcile _ _ _ _ _ _ _); cbn;
    rewrite ?timeouts_app; cbn; rewrite ?app_nil_r; auto.
Qed.




Lemma run_bounded action w :
  steady action ->
  bounded w ->
  exists w', run action w = Some w' /\ bounded w'.
Proof.
  intros Hs [Hd Ht].
  destruct (@backoff_preserves _ delay action
              (fun w1 => currentDelay w1 = currentDelay w
                         /\ timeouts (log w1) = timeouts (log w)))
    with (maxRetries := 5) (initialDelay := currentDelay w) (w := w)
    as (b & w1 & H & Hcd & Hto).
  - intros w0 [H1 H2]. destruct (Hs w0) as (E1 & E2 & _).
    rewrite E1, E2. auto.
  - intros ms w0 [H1 H2]. cbn. rewrite timeouts_app. cbn.
    rewrite app_nil_r. auto.
  - auto.
  - destruct (run_policy _ _ H) as (w' & Hr & _ & _ & Hd' & Hl).
    exists w'. split; [exact Hr|].
    assert (B : 1000 <= currentDelay w' <= 30000).
    { rewrite Hd'. destruct b; [lia|]. unfold doubled. lia. }
    split; [exact B|]. rewrite Hl, timeouts_app, Hto.
    apply Forall_app. split; [exact Ht|].
    destruct (changed w1); cbn; auto.
Qed.

Lemma polls_bounded action :
  steady action ->
  forall n w, bounded w -> exists w', polls action n w = Some w' /\ bounded w'.
Proof.
  intros Hs. induction n as [|n IH]; intros w Hw; cbn [polls]; [eauto|].
  destruct (run_bounded Hs Hw) as (w1 & Hr & Hb). rewrite Hr.
  destruct (changed w1); [eauto|]. now apply IH.
Qed.

Lemma start_bounded p : bounded (start p).
Proof. split; cbn; [lia | constructor]. Qed.

(** X12. Whatever the ledger answers and however many polls have run, a
    loop of either stage has its persistent delay, and every timer it has
    set, between 1000 ms and 30000 ms. *)
Theorem polls_delay_bounds (p : provider) (n : nat) :
  (forall ledger,
      exists w,
        polls (actionA arraysEqual ledger) n (start p) = Some w
        /\ 1000 <= currentDelay w <= 30000
        /\ Forall (fun ms => 1000 <= ms <= 30000) (timeouts (log w)))
  /\ (forall sigs ledger,
      exists w,
        polls (actionB' sigs ledger) n (start p) = Some w
        /\ 1000 <= currentDelay w <= 30000
        /\ Forall (fun ms => 1000 <= ms <= 30000) (timeouts (log w))).
Proof.
  split.
  - intros ledger.
    exact (polls_bounded (actionA_steady ledger) n (start_bounded p)).
  - intros sigs ledger.
    exact (polls_bounded (actionB_steady sigs ledger) n (start_bounded p)).
Qed.

End LoopFacts.

(** ** The polling loops: what is published, and when *)

Section PublicationFacts.
Import Rpc Reconciler Outage Measure.
Variable recipient : PublicKey.
Variable associatedToken : option PublicKey.
Variable MAX_CONFIRMATIONS : Z.
Variable bigNumberOfString : string -> BigNum.BigNumber.
Variable arraysEqual :
  list TransactionSignature -> list TransactionSignature -> bool.

Local Abbreviation actionB' :=
  (actionB recipient associatedToken MAX_CONFIRMATIONS bigNumberOfString).
Local Abbreviation runB' :=
  (runB recipient associatedToken MAX_CONFIRMATIONS bigNumberOfString).
Local Abbreviation reconcile' :=
  (reconcile recipient associatedToken MAX_CONFIRMATIONS bigNumberOfString).

(** A poll whose first attempt succeeds. *)
Lemma run_first_success (action : loop -> bool * loop) w w1 :
  action w = (true, w1) ->
  run action w
  = Some (if changed w1 then setCurrentDelay 1000 w1
          else setTimeout 1000 (setCurrentDelay 1000 w1)).
Proof.
  intros H. unfold run, Backoff.exponentialBackoff.
  change (Z.to_nat 5) with 5%nat. rewrite attempts_unfold.
  change (0 <? 5) with true. cbn iota. rewrite H. cbn iota.
  destruct w1 as [u [|] cd n lg]; reflexivity.
Qed.



Lemma frozen_refl w : changed w = true -> frozen w w.
Proof.
  intros H. unfold frozen. repeat split; auto.
  exists []. now rewrite app_nil_r.
Qed.

Lemma frozen_delay w0 ms w : frozen w0 w -> frozen w0 (delay ms w).
Proof.
  intros (H1 & H2 & H3 & added & H4 & H5). unfold frozen. cbn.
  repeat split; auto. exists (added ++ [Delay ms]).
  rewrite H4, <- app_assoc. split; [reflexivity|].
  apply Forall_app. split; [exact H5|]. repeat constructor.
Qed.

(** An attempt of a cancelled loop asserts [loading] and does nothing else:
    the reply, whatever it is, is dropped. *)
Lemma actionA_cancelled ledger w :
  (forall k, cancelled (ledger k) = false) ->
  changed w = true ->
  changed (snd (actionA arraysEqual ledger w)) = true
  /\ signatures (ui (snd (actionA arraysEqual ledger w))) = signatures (ui w)
  /\ transactions (ui (snd (actionA arraysEqual ledger w)))
     = transactions (ui w)
  /\ log (snd (actionA arraysEqual ledger w)) = log w ++ [SetLoading true].
Proof.
  intros Hk. destruct w as [[sigs txs ld] ch cd n lg]. cbn. intros ->.
  unfold actionA, await. cbn. specialize (Hk n).
  destruct (ledger n) as [c [infos|]]; cbn in Hk; subst c; cbn; auto.
Qed.

Lemma actionB_cancelled sigs ledger w :
  changed w = true ->
  changed (snd (actionB' sigs ledger w)) = true
  /\ signatures (ui (snd (actionB' sigs ledger w))) = signatures (ui w)
  /\ transactions (ui (snd (actionB' sigs ledger w))) = transactions (ui w)
  /\ log (snd (actionB' sigs ledger w)) = log w ++ [SetLoading true].
Proof.
  destruct w as [[s txs ld] ch cd n lg]. cbn. intros ->.
  unfold actionB, await. cbn.
  destruct (ledger n) as [[|] [[pts sts]|]]; cbn; auto.
Qed.

Lemma frozen_attempt (action : loop -> bool * loop) w0 w :
  (forall w1,
      changed w1 = true ->
      changed (snd (action w1)) = true
      /\ signatures (ui (snd (action w1))) = signatures (ui w1)
      /\ transactions (ui (snd (action w1))) = transactions (ui w1)
      /\ log (snd (action w1)) = log w1 ++ [SetLoading true]) ->
  frozen w0 w -> frozen w0 (snd (action w)).
Proof.
  intros Hact (H1 & H2 & H3 & added & H4 & H5).
  destruct (Hact w H1) as (A1 & A2 & A3 & A4). unfold frozen.
  rewrite A1, A2, A3, A4, H2, H3, H4. repeat split; auto.
  exists (added ++ [SetLoading true]). rewrite <- app_assoc.
  split; [reflexivity|]. apply Forall_app. split; [exact H5|].
  repeat constructor.
Qed.

Lemma timeouts_residual l : Forall residual l -> timeouts l = [].
Proof.
  induction 1 as [|e l He _ IH]; [reflexivity|].
  destruct e as [[|]| | | |]; cbn in *; try contradiction; exact IH.
Qed.

(** The poll a cancelled loop still runs. *)
Lemma frozen_poll (action : loop -> bool * loop) w :
  (forall w1,
      changed w1 = true ->
      changed (snd (action w1)) = true
      /\ signatures (ui (snd (action w1))) = signatures (ui w1)
      /\ transactions (ui (snd (action w1))) = transactions (ui w1)
      /\ log (snd (action w1)) = log w1 ++ [SetLoading true]) ->
  changed w = true ->
  exists w' rest,
    run action w = Some w'
    /\ changed w' = true
    /\ signatures (ui w') = signatures (ui w)
    /\ transactions (ui w') = transactions (ui w)
    /\ log w' = log w ++ SetLoading true :: rest
    /\ Forall residual rest
    /\ forall n, polls action (S n) w = Some w'.
Proof.
  intros Hact Hc.
  destruct (exponentialBackoff_total delay action 5 (currentDelay w) w)
    as [[b w1] H].
  destruct (Hact w Hc) as (A1 & A2 & A3 & A4).
  assert (Q : frozen (snd (action w)) w1).
  { pose proof H as H'. unfold Backoff.exponentialBackoff in H'.
    change (Z.to_nat 5) with 5%nat in H'. rewrite attempts_unfold in H'.
    change (0 <? 5) with true in H'. cbn iota in H'.
    destruct (action w) as [[|] wa]; cbn [snd] in *.
    - injection H' as <- <-. now apply frozen_refl.
    - change (0 =? 5 - 1) with false in H'. cbn iota in H'.
      apply (@attempts_preserves _ delay action (frozen wa)) in H'.
      + exact H'.
      + intros w2. now apply frozen_attempt.
      + intros ms w2. apply frozen_delay.
      + apply frozen_delay. now apply frozen_refl. }
  destruct Q as (Q1 & Q2 & Q3 & added & Q4 & Q5).
  destruct (run_policy _ _ H) as (w' & Hr & Hu & Hch & _ & Hl).
  rewrite Q1, app_nil_r in Hl.
  exists w', added. split; [exact Hr|].
  rewrite Hu, Hch, Hl, Q1, Q2, Q3, Q4, A2, A3, A4, <- app_assoc.
  repeat split; auto.
  intros n. cbn [polls]. rewrite Hr, Hch, Q1. reflexivity.
Qed.

(** X14. A loop whose cleanup has run writes neither the signature list nor
    the transaction list again and sets no further timer.  The one poll that
    a pending timer still starts is the last; all it does is write
    [loading := true] at the start of each of its attempts, which nothing in
    the loop clears, and sleep between failed attempts. *)
Theorem cancelled_loop_last_poll :
  (forall ledger w,
      changed w = true ->
      (forall k, cancelled (ledger k) = false) ->
      exists w' rest,
        runA arraysEqual ledger w = Some w'
        /\ changed w' = true
        /\ signatures (ui w') = signatures (ui w)
        /\ transactions (ui w') = transactions (ui w)
        /\ log w' = log w ++ SetLoading true :: rest
        /\ Forall residual rest
        /\ timeouts (log w') = timeouts (log w)
        /\ forall n, polls (actionA arraysEqual ledger) (S n) w = Some w')
  /\ (forall sigs ledger w,
      changed w = true ->
      exists w' rest,
        runB recipient associatedToken MAX_CONFIRMATIONS bigNumberOfString
             sigs ledger w = Some w'
        /\ changed w' = true
        /\ signatures (ui w') = signatures (ui w)
        /\ transactions (ui w') = transactions (ui w)
        /\ log w' = log w ++ SetLoading true :: rest
        /\ Forall residual rest
        /\ timeouts (log w') = timeouts (log w)
        /\ forall n, polls (actionB' sigs ledger) (S n) w = Some w').
Proof.
  split.
  - intros ledger w Hc Hk.
    destruct (@frozen_poll (actionA arraysEqual ledger) w)
      as (w' & rest & Hr & F1 & F2 & F3 & F4 & F5 & Hp).
    + intros w1. now apply actionA_cancelled.
    + exact Hc.
    + exists w', rest. repeat (split; [assumption|]). split; [|exact Hp].
      rewrite F4, timeouts_app. cbn [timeouts flat_map app].
      fold (timeouts rest). rewrite (timeouts_residual F5).
      now rewrite app_nil_r.
  - intros sigs ledger w Hc.
    destruct (@frozen_poll (actionB' sigs ledger) w)
      as (w' & rest & Hr & F1 & F2 & F3 & F4 & F5 & Hp).
    + intros w1. apply actionB_cancelled.
    + exact Hc.
    + exists w', rest. repeat (split; [assumption|]). split; [|exact Hp].
      rewrite F4, timeouts_app. cbn [timeouts flat_map app].
      fold (timeouts rest). rewrite (timeouts_residual F5).
      now rewrite app_nil_r.
Qed.

(** X15. With an [arraysEqual] that tells equal lists from different ones,
    a poll of a live signature-discovery loop whose first call is answered
    stores the signatures of the answer, in the answer's order, clears
    [loading] and schedules the next poll after the base delay. *)
Theorem discovery_publishes_answer ledger w infos
  (Heq : forall a b, arraysEqual a b = true <-> a = b)
  (Hlive : changed w = false)
  (Hanswer : ledger (calls w)
             = {| cancelled := false; result := Some infos |}) :
  exists w',
    runA arraysEqual ledger w = Some w'
    /\ signatures (ui w') = map Rpc.signature infos
    /\ transactions (ui w') = transactions (ui w)
    /\ loading (ui w') = false
    /\ currentDelay w' = 1000
    /\ calls w' = S (calls w)
    /\ log w' = log w ++ [ SetLoading true;
                           SetSignatures (map Rpc.signature infos);
                           SetLoading false;
                           SetTimeout 1000 ].
Proof.
  destruct w as [[sigs txs ld] ch cd n lg]. cbn in Hlive, Hanswer. subst ch.
  assert (E : (if arraysEqual sigs (map Rpc.signature infos)
               then sigs else map Rpc.signature infos)
              = map Rpc.signature infos).
  { destruct (arraysEqual sigs (map Rpc.signature infos)) eqn:Ea;
      [now apply Heq in Ea | reflexivity]. }
  eexists. split.
  - unfold runA. apply run_first_success.
    unfold actionA, await. cbn. rewrite Hanswer. cbn.
    unfold setSignatures, setLoading. cbn. rewrite E. reflexivity.
  - cbn. rewrite <- !app_assoc. cbn. auto 10.
Qed.

(** X16. A poll of a live detail-resolution loop whose first call is
    answered with a batch that reconciles to [l] publishes exactly [l],
    clears [loading] and schedules the next poll after the base delay. *)
Theorem resolution_publishes_records sigs ledger w batch l
  (Hlive : changed w = false)
  (Hanswer : ledger (calls w)
             = {| cancelled := false; result := Some batch |})
  (Hrec : reconcile recipient associatedToken MAX_CONFIRMATIONS
                    bigNumberOfString sigs (fst batch) (snd batch)
          = Some l) :
  exists w',
    runB recipient associatedToken MAX_CONFIRMATIONS bigNumberOfString
         sigs ledger w = Some w'
    /\ transactions (ui w') = l
    /\ signatures (ui w') = signatures (ui w)
    /\ loading (ui w') = false
    /\ currentDelay w' = 1000
    /\ calls w' = S (calls w)
    /\ log w' = log w ++ [ SetLoading true;
                           SetTransactions l;
                           SetLoading false;
                           SetTimeout 1000 ].
Proof.
  destruct w as [[s txs ld] ch cd n lg], batch as [pts sts].
  cbn in Hlive, Hanswer, Hrec. subst ch.
  eexists. split.
  - unfold runB. apply run_first_success.
    unfold actionB, await. cbn. rewrite Hanswer. cbn. rewrite Hrec.
    reflexivity.
  - cbn. rewrite <- !app_assoc. cbn. auto 10.
Qed.

(** X17. A batch for which the callback raises an exception makes the
    attempt fail: against a ledger that keeps answering with such a batch, a
    poll of a live detail-resolution loop has the effects it has against a
    ledger that cannot be reached.  It uses all five attempts, each of which
    writes [loading := true] and nothing else, sleeps 1, 2, 4 and 8 times
    the persistent delay between them, never writes the transaction list,
    doubles the persistent delay up to the cap and sets the timer of the
    next poll to it. *)
Theorem resolution_poisoned_batch sigs ledger w batch
  (Hlive : changed w = false)
  (Hanswer : forall k,
      ledger k = {| cancelled := false; result := Some batch |})
  (Hrec : reconcile recipient associatedToken MAX_CONFIRMATIONS
                    bigNumberOfString sigs (fst batch) (snd batch) = None) :
  exists w',
    runB recipient associatedToken MAX_CONFIRMATIONS bigNumberOfString
         sigs ledger w = Some w'
    /\ transactions (ui w') = transactions (ui w)
    /\ signatures (ui w') = signatures (ui w)
    /\ changed w' = false
    /\ currentDelay w' = doubled (currentDelay w)
    /\ calls w' = (5 + calls w)%nat
    /\ log w'
       = log w ++
         [ SetLoading true; Delay (currentDelay w * 1);
           SetLoading true; Delay (currentDelay w * 2);
           SetLoading true; Delay (currentDelay w * 4);
           SetLoading true; Delay (currentDelay w * 8);
           SetLoading true; SetTimeout (doubled (currentDelay w)) ].
Proof.
  exists (exhausted w). split; [|repeat split; reflexivity].
  destruct w as [[s txs ld] ch cd n lg], batch as [pts sts].
  cbn in Hlive, Hrec. subst ch.
  unfold runB, run, Backoff.exponentialBackoff, exhausted, doubled.
  change (Z.to_nat 5) with 5%nat.
  unfold actionB, await.
  cbn -[Z.mul Z.min reconcile]. rewrite !Hanswer.
  cbn -[Z.mul Z.min reconcile]. rewrite !Hrec.
  cbn -[Z.mul Z.min reconcile]. rewrite !Hanswer.
  cbn -[Z.mul Z.min reconcile]. rewrite !Hrec.
  cbn -[Z.mul Z.min reconcile]. rewrite !Hanswer.
  cbn -[Z.mul Z.min reconcile]. rewrite !Hrec.
  cbn -[Z.mul Z.min reconcile]. rewrite !Hanswer.
  cbn -[Z.mul Z.min reconcile]. rewrite !Hrec.
  cbn -[Z.mul Z.min reconcile]. rewrite !Hanswer.
  cbn -[Z.mul Z.min reconcile]. rewrite !Hrec.
  cbn -[Z.mul Z.min reconcile].
  unfold setTimeout, setCurrentDelay. cbn -[Z.mul Z.min].
  now rewrite <- !app_assoc.
Qed.

End PublicationFacts.

(** ** The payment session: reachable states, transitions, the request *)

Section SessionMore.
Import Rpc Session Measure.

Lemma watch_interval a :
  interval (watch a)
  = match status (sess a) with
    | Pending => reference (sess a)
    | _ => None
    end.
Proof.
  cbn. destruct (status (sess a)), (reference (sess a)); reflexivity.
Qed.

Lemma settle_session ans a :
  sess (settle ans a) = sess a
  \/ (sufficient ans
      /\ inflight a <> []
      /\ sess (settle ans a)
         = {| amount := amount (sess a); memo := memo (sess a);
              reference := reference (sess a); status := Confirmed |}).
Proof.
  unfold settle. destruct (inflight a) as [|r rest] eqn:E; [now left|].
  destruct (checkTransaction_cases ans
              {| sess := sess a; routes := routes a; errors := errors a;
                 interval := interval a; inflight := rest |})
    as [[S ->]|[_ [Es _]]].
  - right. split; [exact S|]. split; [discriminate | reflexivity].
  - left. exact Es.
Qed.

Lemma step_consistent op a : consistent a -> consistent (step op a).
Proof.
  intros (H1 & H2 & _). unfold consistent, step. rewrite watch_interval.
  cbn [watch sess].
  destruct op as [x|x|key| | |ans].
  - cbn. auto.
  - cbn. auto.
  - unfold generate.
    destruct (status (sess a)) eqn:Es; cbn [isNew];
      [destruct (reference (sess a)) eqn:Er|..]; cbn;
      rewrite ?Es, ?Er; repeat split; auto; try discriminate;
      intros; try discriminate; auto.
  - cbn. repeat split; auto; discriminate.
  - unfold tick. destruct (interval a); cbn; auto.
  - destruct (settle_session ans a) as [->|(_ & _ & ->)]; cbn;
      [auto | repeat split; auto; discriminate].
Qed.

Lemma steps_consistent ops :
  forall a, consistent a -> consistent (steps ops a).
Proof.
  unfold steps. induction ops as [|op ops IH]; intros a Ha; cbn; [exact Ha|].
  apply IH. now apply step_consistent.
Qed.

Lemma mounted_consistent : consistent mounted.
Proof. unfold consistent. cbn. repeat split; auto; discriminate. Qed.

(** X18. Whatever has been done to the session since it was mounted, a
    session in New has no reference, a pending session has one, and the
    watcher's interval runs exactly while the session is pending, on the
    session's reference. *)
Theorem reachable_consistent (ops : list operation) :
  (status (sess (steps ops mounted)) = New ->
   reference (sess (steps ops mounted)) = None)
  /\ (status (sess (steps ops mounted)) = Pending ->
      reference (sess (steps ops mounted)) <> None)
  /\ interval (steps ops mounted)
     = match status (sess (steps ops mounted)) with
       | Pending => reference (sess (steps ops mounted))
       | _ => None
       end.
Proof. exact (steps_consistent ops mounted_consistent). Qed.

(** The closure of the current render is [generate] itself, so a handler
    that makes one call is one step. *)
Lemma generateFrom_rendered key a : generateFrom (sess a) key a = generate key a.
Proof. reflexivity. Qed.

Lemma handler_single_generate key a :
  handler [CallGenerate key] a = step (Generate key) a.
Proof. reflexivity. Qed.

Lemma handler_single_reset a : handler [CallReset] a = step Reset a.
Proof. reflexivity. Qed.

(** Calls of [generate] from a render whose guard fails write nothing. *)
Lemma generate_calls_refused keys :
  forall rendered a,
    (status rendered <> New \/ reference rendered <> None) ->
    fold_left (invoke rendered) (map CallGenerate keys) a = a.
Proof.
  induction keys as [|key keys IH]; intros rendered a H; [reflexivity|].
  cbn [map fold_left invoke].
  replace (generateFrom rendered key a) with a; [now apply IH|].
  unfold generateFrom.
  destruct (status rendered), (reference rendered); cbn [isNew];
    try reflexivity.
  exfalso. destruct H as [H|H]; now apply H.
Qed.

(** X19. Which calls write the reference.  One call made from a render:
    only [generate] on a session in New without a reference sets the
    reference, only [reset] clears it.  Two calls of [generate] with a
    render between them: the second one changes nothing.  Two calls of
    [generate] from one and the same render of a session in New without a
    reference: both pass the guard, which reads the rendered status and
    reference, so the session ends pending on the second key, after two
    navigations to /pending.  Calls of [generate] from a render whose
    session is not in New, or has a reference, change nothing, however many
    they are. *)
Theorem reference_assignment :
  (forall op a,
      reference (sess (step op a)) = reference (sess a)
      \/ (op = Reset /\ reference (sess (step op a)) = None)
      \/ (exists key,
             op = Generate key
             /\ status (sess a) = New
             /\ reference (sess a) = None
             /\ reference (sess (step op a)) = Some key))
  /\ (forall key1 key2 a,
      step (Generate key2) (step (Generate key1) a)
      = step (Generate key1) a)
  /\ (forall key1 key2 a,
      status (sess a) = New ->
      reference (sess a) = None ->
      sess (handler [CallGenerate key1; CallGenerate key2] a)
      = {| amount := amount (sess a); memo := memo (sess a);
           reference := Some key2; status := Pending |}
      /\ interval (handler [CallGenerate key1; CallGenerate key2] a)
         = Some key2
      /\ routes (handler [CallGenerate key1; CallGenerate key2] a)
         = routes a ++ [ {| path := "/pending"; replace := false |};
                         {| path := "/pending"; replace := false |} ])
  /\ (forall keys a,
      (status (sess a) <> New \/ reference (sess a) <> None) ->
      handler (map CallGenerate keys) a = watch a).
Proof.
  split; [|split; [|split]].
  - intros op a. unfold step. cbn [watch sess].
    destruct op as [x|x|key| | |ans].
    + now left.
    + now left.
    + unfold generate.
      destruct (status (sess a)) eqn:Es; cbn [isNew]; try now left.
      destruct (reference (sess a)) eqn:Er; [now left|].
      right. right. exists key. cbn. auto.
    + right. left. now split.
    + left. unfold tick. now destruct (interval a).
    + left. destruct (settle_session ans a) as [->|(_ & _ & ->)]; reflexivity.
  - intros key1 key2 a. unfold step, generate.
    destruct a as [[am me [r|] [| |]] ro er iv fl]; reflexivity.
  - intros key1 key2 a Hs Hr. unfold handler.
    cbn [fold_left invoke]. unfold generateFrom. rewrite Hs, Hr.
    cbn. rewrite <- app_assoc. repeat split; reflexivity.
  - intros keys a H. unfold handler.
    now rewrite (@generate_calls_refused keys (sess a) a H).
Qed.

(** X20. The only changes of status: [generate] takes New to Pending,
    [reset] takes any status to New, and an answered poll that shows the
    transaction at the "confirmed" or "finalized" level takes any status to
    Confirmed.  Every other operation, and every other answer, leaves the
    status as it is; in particular Confirmed is left only by [reset]. *)
Theorem status_transitions (op : operation) (a : app) :
  status (sess (step op a)) = status (sess a)
  \/ (status (sess a) = New
      /\ status (sess (step op a)) = Pending
      /\ exists key, op = Generate key)
  \/ (op = Reset /\ status (sess (step op a)) = New)
  \/ (status (sess (step op a)) = Confirmed
      /\ inflight a <> []
      /\ exists ans, op = Settle ans /\ sufficient ans).
Proof.
  unfold step. cbn [watch sess].
  destruct op as [x|x|key| | |ans].
  - now left.
  - now left.
  - unfold generate.
    destruct (status (sess a)) eqn:Es; cbn [isNew]; try now left.
    destruct (reference (sess a)) eqn:Er; [now left|].
    right. left. cbn. eauto.
  - right. right. left. now split.
  - left. unfold tick. now destruct (interval a).
  - destruct (settle_session ans a) as [->|(S & N & ->)]; [now left|].
    right. right. right. cbn. eauto.
Qed.

(** Polls that do not find the reference leave the whole component as it
    is, console included. *)
Lemma notFound_round a :
  inflight a = [] ->
  watch a = a ->
  step (Settle NotFound) (step Tick a) = a.
Proof.
  intros Hi Hw. unfold step, tick, settle.
  destruct a as [s ro er [r|] fl]; cbn in *; subst fl; cbn; exact Hw.
Qed.

Lemma watch_step op a : watch (step op a) = step op a.
Proof.
  unfold step. generalize (match op with
                           | SetAmount x => setAmount x a
                           | SetMemo x => setMemo x a
                           | Generate key => generate key a
                           | Reset => reset a
                           | Tick => tick a
                           | Settle ans => settle ans a
                           end).
  intros [[am me [r|] [| |]] ro er iv fl]; reflexivity.
Qed.

Lemma watch_steps ops : watch (steps ops mounted) = steps ops mounted.
Proof.
  unfold steps. rewrite <- (rev_involutive ops).
  destruct (rev ops) as [|op rest]; [reflexivity|].
  cbn [rev]. rewrite fold_left_app. cbn [fold_left]. apply watch_step.
Qed.

Lemma notFound_rounds n :
  forall a, inflight a = [] -> watch a = a -> steps (notFoundRounds n) a = a.
Proof.
  induction n as [|n IH]; intros a Hi Hw; [reflexivity|].
  unfold steps in *. cbn [notFoundRounds fold_left].
  rewrite (notFound_round Hi Hw). now apply IH.
Qed.

(** X21. However the session was reached, as long as no poll is pending,
    any number of polls that end in "reference not found" leave the
    component exactly as it was: same session, same page, nothing written
    to the console. *)
Theorem not_found_polls_change_nothing (ops : list operation) (n : nat)
  (Hidle : inflight (steps ops mounted) = []) :
  steps (notFoundRounds n) (steps ops mounted) = steps ops mounted.
Proof. apply notFound_rounds; [exact Hidle | apply watch_steps]. Qed.

(** X22. [reset] and then [generate].  With a render between the two
    calls, from every state: a new pending session on the new key, with no
    amount and no memo, watched by the interval, after the navigations to
    /new and to /pending.  Called one after the other from one and the same
    render, [generate] reads the status and the reference of that render:
    the result is the same when that render shows a session in New without
    a reference; from every other render [generate] returns at its guard,
    and the session ends in New with no amount, memo or reference and no
    interval, after the navigation to /new only. *)
Theorem reset_then_generate (key : PublicKey) (a : app) :
  (sess (steps [Reset; Generate key] a)
   = {| amount := None; memo := None;
        reference := Some key; status := Pending |}
   /\ interval (steps [Reset; Generate key] a) = Some key
   /\ routes (steps [Reset; Generate key] a)
      = routes a ++ [ {| path := "/new"; replace := true |};
                      {| path := "/pending"; replace := false |} ])
  /\ (status (sess a) = New ->
      reference (sess a) = None ->
      sess (handler [CallReset; CallGenerate key] a)
      = {| amount := None; memo := None;
           reference := Some key; status := Pending |}
      /\ interval (handler [CallReset; CallGenerate key] a) = Some key
      /\ routes (handler [CallReset; CallGenerate key] a)
         = routes a ++ [ {| path := "/new"; replace := true |};
                         {| path := "/pending"; replace := false |} ])
  /\ ((status (sess a) <> New \/ reference (sess a) <> None) ->
      sess (handler [CallReset; CallGenerate key] a)
      = {| amount := None; memo := None;
           reference := None; status := New |}
      /\ interval (handler [CallReset; CallGenerate key] a) = None
      /\ routes (handler [CallReset; CallGenerate key] a)
         = routes a ++ [ {| path := "/new"; replace := true |} ]).
Proof.
  split; [|split].
  - cbn. rewrite <- app_assoc. repeat split; reflexivity.
  - intros Hs Hr. unfold handler. cbn [fold_left invoke].
    unfold generateFrom. rewrite Hs, Hr.
    cbn. rewrite <- app_assoc. repeat split; reflexivity.
  - intros H. unfold handler. cbn [fold_left invoke].
    unfold generateFrom.
    destruct (status (sess a)), (reference (sess a)); cbn [isNew];
      try (cbn; repeat split; reflexivity).
    exfalso. destruct H as [H|H]; now apply H.
Qed.

Section RequestFacts.
Variable URL : Type.
Variable encodeURL : Request.TransferRequestURLFields -> URL.

(** X23. The payment request exists exactly when the session has both an
    amount and a reference, and then it encodes the configuration and the
    session's fields; so no request exists while a session reached from the
    mounted component is in New, nor right after a [reset]. *)
Theorem url_defined_iff (c : Config.config) :
  (forall s,
      Request.url encodeURL c s <> None
      <-> amount s <> None /\ reference s <> None)
  /\ (forall s x r,
      amount s = Some x -> reference s = Some r ->
      Request.url encodeURL c s
      = Some (encodeURL {| Request.recipient := Config.recipient c;
                           Request.amount := x;
                           Request.splToken := Config.splToken c;
                           Request.reference := r;
                           Request.label := Config.label c;
                           Request.message := Config.message c;
                           Request.memo := memo s |}))
  /\ (forall ops,
      status (sess (steps ops mounted)) = New ->
      Request.url encodeURL c (sess (steps ops mounted)) = None)
  /\ (forall a, Request.url encodeURL c (sess (step Reset a)) = None).
Proof.
  split; [|split; [|split]].
  - intros s. unfold Request.url.
    destruct (amount s), (reference s); split;
      try (intros [H1 H2]); try congruence; intros _; split; congruence.
  - intros s x r Ha Hr. unfold Request.url. now rewrite Ha, Hr.
  - intros ops Hs.
    destruct (steps_consistent ops mounted_consistent) as (H1 & _ & _).
    unfold Request.url. rewrite (H1 Hs).
    now destruct (amount (sess (steps ops mounted))).
  - reflexivity.
Qed.

End RequestFacts.

End SessionMore.

(** ** The token account of the recipient *)

Section TokenAccountFacts.
Import Rpc TokenAccount.

Lemma setChanged_same l :
  forall run, (run < List.length l)%nat ->
              nth_error (setChanged run l) run = Some true.
Proof.
  induction l as [|flag l IH]; intros [|run] H; cbn in *; try lia; auto.
  apply IH. lia.
Qed.

Lemma setChanged_keeps l :
  forall run other,
    nth_error l other = Some true ->
    nth_error (setChanged run l) other = Some true.
Proof.
  induction l as [|flag l IH]; intros [|run] [|other] H; cbn in *;
    try discriminate; auto.
Qed.

(** Once a run's flag is set, nothing unsets it. *)
Lemma handle_keeps_flag st e run :
  nth_error (flags st) run = Some true ->
  nth_error (flags (handle st e)) run = Some true.
Proof.
  intros H. destruct e as [[token|]|r ata|r]; cbn.
  - rewrite nth_error_app1; [exact H|].
    apply nth_error_Some. congruence.
  - exact H.
  - unfold resolve. destruct (nth_error (flags st) r) as [[|]|]; exact H.
  - unfold cleanup. destruct (nth_error (flags st) r); cbn; [|exact H].
    now apply setChanged_keeps.
Qed.

Lemma handleAll_keeps_flag es :
  forall st run,
    nth_error (flags st) run = Some true ->
    nth_error (flags (handleAll es st)) run = Some true.
Proof.
  unfold handleAll. induction es as [|e es IH]; intros st run H; cbn; auto.
  apply IH. now apply handle_keeps_flag.
Qed.

(** X24. The effect that derives the token account, run by run.  With no
    token configured a run does nothing.  With a token, a run starts live;
    the address it derives is stored if it arrives while the run is live;
    the run's cleanup clears the stored address; and after its cleanup an
    address derived by that run is dropped whenever it arrives, whatever has
    happened since (later runs, their results, their cleanups). *)
Theorem token_account_lifecycle :
  (forall st, effect None st = st)
  /\ (forall token st,
      associatedToken (effect (Some token) st) = associatedToken st
      /\ nth_error (flags (effect (Some token) st)) (List.length (flags st))
         = Some false)
  /\ (forall st run ata,
      nth_error (flags st) run = Some false ->
      associatedToken (resolve run ata st) = Some ata)
  /\ (forall st run,
      (run < List.length (flags st))%nat ->
      associatedToken (cleanup run st) = None)
  /\ (forall st run later ata,
      (run < List.length (flags st))%nat ->
      resolve run ata (handleAll later (cleanup run st))
      = handleAll later (cleanup run st)).
Proof.
  split; [|split; [|split; [|split]]].
  - reflexivity.
  - intros token st. cbn. split; [reflexivity|].
    rewrite nth_error_app2 by lia. now rewrite Nat.sub_diag.
  - intros st run ata H. unfold resolve. now rewrite H.
  - intros st run H. unfold cleanup.
    destruct (nth_error (flags st) run) eqn:E; [reflexivity|].
    apply nth_error_None in E. lia.
  - intros st run later ata H.
    assert (F : nth_error (flags (cleanup run st)) run = Some true).
    { unfold cleanup. destruct (nth_error (flags st) run) eqn:E.
      - cbn. now apply setChanged_same.
      - apply nth_error_None in E. lia. }
    unfold resolve. now rewrite (handleAll_keeps_flag later _ _ F).
Qed.

(** Mint A's run is cleaned up, mint B's run starts and stores its address;
    the address of mint A's run arrives late and is dropped. *)
Example token_account_late_address :
  associatedToken
    (handleAll [ Start (Some "MintA"%string);
                 Cleanup 0;
                 Start (Some "MintB"%string);
                 Resolve 1 "AtaB"%string;
                 Resolve 0 "AtaA"%string ]
               {| associatedToken := None; flags := [] |})
  = Some "AtaB"%string.
Proof. reflexivity. Qed.

End TokenAccountFacts.

(** ** The product selection *)

Section SelectionFacts.
Import Selection Measure.

Lemma updateQuantity_idx i q ms : map idx (updateQuantity i q ms) = map idx ms.
Proof.
  unfold updateQuantity. rewrite map_map. apply map_ext. intros m.
  now destruct (idx m =? i).
Qed.

Lemma updateQuantity_labels i q ms :
  map name (updateQuantity i q ms) = map name ms
  /\ map price_in_sol (updateQuantity i q ms) = map price_in_sol ms
  /\ map icon (updateQuantity i q ms) = map icon ms.
Proof.
  unfold updateQuantity. rewrite !map_map.
  repeat split; apply map_ext; intros m; now destruct (idx m =? i).
Qed.

Lemma alignedFrom_idx ms :
  forall ms' at_,
    map idx ms' = map idx ms -> alignedFrom at_ ms -> alignedFrom at_ ms'.
Proof.
  induction ms as [|m ms IH]; intros [|m' ms'] at_ H; cbn in *;
    try discriminate; auto.
  injection H as H1 H2. intros [Hm Hr]. split; [congruence|]. now apply IH.
Qed.

Lemma alignedFrom_nth ms :
  forall at_ n m,
    alignedFrom at_ ms -> nth_error ms n = Some m -> idx m = at_ + Z.of_nat n.
Proof.
  induction ms as [|m0 ms IH]; intros at_ n m Ha Hn.
  - destruct n; discriminate.
  - destruct Ha as [H0 Hr]. destruct n as [|n]; cbn in Hn.
    + injection Hn as <-. lia.
    + rewrite (IH _ _ _ Hr Hn). lia.
Qed.

Lemma aligned_index ms i :
  aligned ms ->
  In i (map idx ms) ->
  exists m, Js.index ms i = Some m /\ idx m = i.
Proof.
  intros Ha Hin. apply in_map_iff in Hin. destruct Hin as (m & Hi & Hm).
  apply In_nth_error in Hm. destruct Hm as [n Hn].
  pose proof (@alignedFrom_nth _ _ _ _ Ha Hn) as E. exists m. split; [|exact Hi].
  unfold Js.index. destruct (Z.ltb_spec i 0); [lia|].
  replace (Z.to_nat i) with n by lia. exact Hn.
Qed.

Lemma aligned_unique ms i m m' :
  aligned ms ->
  Js.index ms i = Some m ->
  In m' ms ->
  idx m' = i ->
  m' = m.
Proof.
  intros Ha Hi Hin He. unfold Js.index in Hi.
  destruct (Z.ltb_spec i 0); [discriminate|].
  apply In_nth_error in Hin. destruct Hin as [n Hn].
  pose proof (@alignedFrom_nth _ _ _ _ Ha Hn) as E.
  replace (Z.to_nat i) with n in Hi by lia. congruence.
Qed.

Lemma updateQuantity_nonneg i q ms :
  0 <= q ->
  Forall (fun m => 0 <= quantity m) ms ->
  Forall (fun m => 0 <= quantity m) (updateQuantity i q ms).
Proof.
  intros Hq H. unfold updateQuantity. apply Forall_map.
  eapply Forall_impl; [|exact H]. intros m Hm. cbn.
  now destruct (idx m =? i).
Qed.

Lemma index_In A (xs : list A) i x : Js.index xs i = Some x -> In x xs.
Proof.
  unfold Js.index. destruct (i <? 0); [discriminate|]. apply nth_error_In.
Qed.

Lemma press_stocked c ms :
  stocked ms ->
  offered c ms ->
  exists ms',
    press c ms = Some ms'
    /\ stocked ms'
    /\ map idx ms' = map idx ms
    /\ map name ms' = map name ms
    /\ map price_in_sol ms' = map price_in_sol ms
    /\ map icon ms' = map icon ms.
Proof.
  intros [Ha Hq] Ho.
  assert (U : forall i q, 0 <= q ->
                stocked (updateQuantity i q ms)
                /\ map idx (updateQuantity i q ms) = map idx ms
                /\ map name (updateQuantity i q ms) = map name ms
                /\ map price_in_sol (updateQuantity i q ms)
                   = map price_in_sol ms
                /\ map icon (updateQuantity i q ms) = map icon ms).
  { intros i q H0. split; [split|].
    - eapply alignedFrom_idx; [apply updateQuantity_idx | exact Ha].
    - now apply updateQuantity_nonneg.
    - split; [apply updateQuantity_idx | apply updateQuantity_labels]. }
  destruct c as [i|i]; cbn in Ho;
    destruct (@aligned_index _ _ Ha Ho) as (m & Hm & _); cbn;
    unfold onMinus, onPlus; rewrite Hm.
  - destruct (Z.ltb_spec 0 (quantity m)).
    + eexists. split; [reflexivity|]. apply U. lia.
    + exists ms. repeat split; auto.
  - eexists. split; [reflexivity|]. apply U.
    apply index_In in Hm. rewrite Forall_forall in Hq.
    specialize (Hq _ Hm). cbn in Hq. lia.
Qed.

(** X25. On a selection in which every coin sits at the position its [idx]
    names and no quantity is negative, any sequence of clicks on the
    rendered buttons goes through without an exception, and afterwards the
    selection is again of that kind: the same coins in the same order, with
    the same names, prices and icons, and no quantity below zero. *)
Theorem clicks_keep_selection (cs : list click) (ms : list Memecoin)
  (Hstocked : stocked ms)
  (Hoffered : Forall (fun c => offered c ms) cs) :
  exists ms',
    pressAll cs ms = Some ms'
    /\ stocked ms'
    /\ map idx ms' = map idx ms
    /\ map name ms' = map name ms
    /\ map price_in_sol ms' = map price_in_sol ms
    /\ map icon ms' = map icon ms.
Proof.
  revert ms Hstocked Hoffered.
  induction cs as [|c cs IH]; intros ms Hs Ho.
  - exists ms. repeat split; auto; apply Hs.
  - inversion Ho as [|? ? Hc Hcs]; subst.
    destruct (@press_stocked _ _ Hs Hc) as (ms1 & Hp & Hs1 & E1 & E2 & E3 & E4).
    destruct (IH ms1 Hs1) as (ms' & Hp' & Hs' & F1 & F2 & F3 & F4).
    + eapply Forall_impl; [|exact Hcs]. intros c'.
      unfold offered. destruct c'; now rewrite E1.
    + exists ms'. cbn [pressAll]. rewrite Hp.
      repeat split; try apply Hs'; congruence.
Qed.

Lemma withQuantity_same m : withQuantity (quantity m) m = m.
Proof. now destruct m. Qed.

Lemma updateQuantity_twice i q q' ms :
  updateQuantity i q (updateQuantity i q' ms) = updateQuantity i q ms.
Proof.
  unfold updateQuantity. rewrite map_map. apply map_ext. intros m.
  destruct (Z.eqb_spec (idx m) i) as [E|E]; cbn.
  - destruct (Z.eqb_spec (idx m) i); [reflexivity | contradiction].
  - destruct (Z.eqb_spec (idx m) i); [contradiction | reflexivity].
Qed.

Lemma updateQuantity_same ms i m :
  aligned ms ->
  Js.index ms i = Some m ->
  updateQuantity i (quantity m) ms = ms.
Proof.
  intros Ha Hm. unfold updateQuantity.
  rewrite <- (map_id ms) at 2. apply map_ext_in. intros m' Hin.
  destruct (Z.eqb_spec (idx m') i) as [E|E]; [|reflexivity].
  rewrite (@aligned_unique _ _ _ _ Ha Hm Hin E). apply withQuantity_same.
Qed.

Lemma index_updateQuantity ms i q m :
  Js.index ms i = Some m ->
  idx m = i ->
  Js.index (updateQuantity i q ms) i = Some (withQuantity q m).
Proof.
  unfold Js.index, updateQuantity. destruct (i <? 0); [discriminate|].
  intros H E. rewrite nth_error_map, H. cbn.
  destruct (Z.eqb_spec (idx m) i); [reflexivity | contradiction].
Qed.

(** X26. On such a selection, the plus button of a coin followed by its
    minus button gives back the selection as it was; and the minus button of
    a coin whose quantity is zero changes nothing. *)
Theorem plus_then_minus (i : Z) (ms : list Memecoin)
  (Hstocked : stocked ms)
  (Hoffered : In i (map idx ms)) :
  pressAll [Plus i; Minus i] ms = Some ms
  /\ (forall m, Js.index ms i = Some m -> quantity m = 0 ->
      press (Minus i) ms = Some ms).
Proof.
  destruct Hstocked as [Ha Hq].
  destruct (@aligned_index _ _ Ha Hoffered) as (m & Hm & Hi).
  assert (Hqm : 0 <= quantity m).
  { rewrite Forall_forall in Hq. apply (Hq m). eapply index_In. exact Hm. }
  split.
  - cbn [pressAll press]. unfold onPlus. rewrite Hm.
    unfold onMinus. rewrite (@index_updateQuantity _ _ _ _ Hm Hi).
    cbn [quantity withQuantity].
    destruct (Z.ltb_spec 0 (quantity m + 1)); [|lia].
    rewrite updateQuantity_twice.
    replace (quantity m + 1 - 1) with (quantity m) by lia.
    now rewrite (@updateQuantity_same _ _ _ Ha Hm).
  - intros m0 Hm0 H0. cbn. unfold onMinus. rewrite Hm0, H0. reflexivity.
Qed.

End SelectionFacts.

(** ** The further properties on the sample data *)

Lemma sameSignatures_spec a :
  forall b, Outage.sameSignatures a b = true <-> a = b.
Proof.
  induction a as [|x a IH]; intros [|y b]; cbn;
    try (split; [discriminate | discriminate]); [tauto|].
  rewrite andb_true_iff, String.eqb_eq, IH. split.
  - intros [-> ->]. reflexivity.
  - intros [= -> ->]. auto.
Qed.

Lemma reconcile_keeps_order_witness :
  Reconciler.reconcile Sample.merchant None 32 Sample.digit
    ["sig-token"; "sig-native"]%string
    [Some Sample.tokenTransfer; Some Sample.nativeTransfer]
    [Some Sample.finalizedStatus; Some Sample.confirmedStatus]
  = Some [Sample.nativeRecord]
  /\ Measure.subsequence ["sig-native"%string]
                         ["sig-token"; "sig-native"]%string.
Proof.
  split; [vm_compute; reflexivity|].
  apply (@reconcile_keeps_order Sample.merchant None 32 Sample.digit
           ["sig-token"; "sig-native"]%string
           [Some Sample.tokenTransfer; Some Sample.nativeTransfer]
           [Some Sample.finalizedStatus; Some Sample.confirmedStatus]
           [Sample.nativeRecord]).
  vm_compute. reflexivity.
Defined.

Lemma reconcile_alignment_witness :
  Reconciler.reconcile Sample.merchant None 32 Sample.digit
    ["sig-token"; "sig-native"]%string
    [Some Sample.tokenTransfer; Some Sample.nativeTransfer]
    [Some Sample.finalizedStatus; Some Sample.confirmedStatus]
  = Some [Sample.nativeRecord]
  /\ exists idx tx m st,
      Js.index ["sig-token"; "sig-native"]%string idx
      = Some (Reconciler.signature Sample.nativeRecord)
      /\ Js.indexNullable
           [Some Sample.tokenTransfer; Some Sample.nativeTransfer] idx
         = Some tx
      /\ Rpc.meta tx = Some m
      /\ Js.indexNullable
           [Some Sample.finalizedStatus; Some Sample.confirmedStatus] idx
         = Some st
      /\ Rpc.blockTime tx = Some (Reconciler.timestamp Sample.nativeRecord)
      /\ Reconciler.timestamp Sample.nativeRecord <> 0
      /\ Reconciler.error Sample.nativeRecord = Rpc.err m
      /\ Rpc.confirmationStatus st
         = Some (Reconciler.status Sample.nativeRecord).
Proof.
  split; [vm_compute; reflexivity|].
  apply (@reconcile_alignment Sample.merchant 32 Sample.digit None
           ["sig-token"; "sig-native"]%string
           [Some Sample.tokenTransfer; Some Sample.nativeTransfer]
           [Some Sample.finalizedStatus; Some Sample.confirmedStatus]
           [Sample.nativeRecord] Sample.nativeRecord).
  - vm_compute. reflexivity.
  - now left.
Defined.

Lemma native_amount_in_sol_witness :
  Reconciler.reconcile Sample.merchant None 32 Sample.digit
    ["sig-native"%string] [Some Sample.nativeTransfer]
    [Some Sample.confirmedStatus]
  = Some [Sample.nativeRecord]
  /\ Reconciler.amount Sample.nativeRecord = BigNum.Finite (5 # 2).
Proof.
  split; [vm_compute; reflexivity|].
  destruct (@native_amount_in_sol Sample.merchant 32 Sample.digit
              ["sig-native"%string] [Some Sample.nativeTransfer]
              [Some Sample.confirmedStatus]
              [Sample.nativeRecord] Sample.nativeRecord)
    as (idx & tx & m & p & k & key & _).
  - vm_compute. reflexivity.
  - now left.
  - reflexivity.
Defined.

Lemma token_amount_in_units_witness :
  Reconciler.reconcile Sample.merchant (Some Sample.merchantTokens) 32
    Sample.digit ["sig-token"%string] [Some Sample.tokenTransfer]
    [Some Sample.finalizedStatus]
  = Some [Sample.tokenRecord]
  /\ Reconciler.amount Sample.tokenRecord = BigNum.Finite 3.
Proof.
  split; [vm_compute; reflexivity|].
  destruct (@token_amount_in_units Sample.merchant 32 Sample.digit
              Sample.merchantTokens
              ["sig-token"%string] [Some Sample.tokenTransfer]
              [Some Sample.finalizedStatus]
              [Sample.tokenRecord] Sample.tokenRecord)
    as (idx & _).
  - vm_compute. reflexivity.
  - now left.
  - reflexivity.
Defined.

Lemma native_transfer_is_recorded_witness :
  Reconciler.extract Sample.merchant None 32 Sample.digit
    [Some Sample.nativeTransfer] [Some Sample.confirmedStatus]
    "sig-native"%string 0
  = Reconciler.Emit Sample.nativeRecord.
Proof.
  eapply eq_trans.
  - eapply (@native_transfer_is_recorded Sample.merchant 32 Sample.digit
              [Some Sample.nativeTransfer] [Some Sample.confirmedStatus]
              "sig-native"%string 0).
    + reflexivity.
    + reflexivity.
    + reflexivity.
    + reflexivity.
    + discriminate.
    + reflexivity.
    + reflexivity.
    + reflexivity.
    + reflexivity.
    + reflexivity.
    + discriminate.
    + reflexivity.
    + discriminate.
    + reflexivity.
    + reflexivity.
    + unfold Js.isSafeInteger, Js.MAX_SAFE_INTEGER. lia.
    + unfold Js.isSafeInteger, Js.MAX_SAFE_INTEGER. lia.
    + lia.
  - vm_compute. reflexivity.
Defined.

Lemma token_transfer_is_recorded_witness :
  Reconciler.extract Sample.merchant (Some Sample.merchantTokens) 32
    Sample.digit [Some Sample.tokenTransfer] [Some Sample.finalizedStatus]
    "sig-token"%string 0
  = Reconciler.Emit Sample.tokenRecord.
Proof.
  eapply eq_trans.
  - eapply (@token_transfer_is_recorded Sample.merchant 32 Sample.digit
              Sample.merchantTokens
              [Some Sample.tokenTransfer] [Some Sample.finalizedStatus]
              "sig-token"%string 0).
    + reflexivity.
    + reflexivity.
    + reflexivity.
    + reflexivity.
    + discriminate.
    + reflexivity.
    + reflexivity.
    + right. reflexivity.
    + reflexivity.
    + reflexivity.
    + discriminate.
    + reflexivity.
    + discriminate.
    + reflexivity.
    + reflexivity.
    + reflexivity.
    + discriminate.
    + reflexivity.
    + reflexivity.
    + reflexivity.
    + discriminate.
    + reflexivity.
  - vm_compute. reflexivity.
Defined.

Lemma discovery_publishes_answer_witness :
  exists w',
    Reconciler.runA Outage.sameSignatures
      (fun _ => {| Reconciler.cancelled := false;
                   Reconciler.result :=
                     Some [ {| Rpc.signature := "s2"%string |};
                            {| Rpc.signature := "s1"%string |} ] |})
      (Reconciler.start Outage.idle) = Some w'
    /\ Reconciler.signatures (Reconciler.ui w') = ["s2"; "s1"]%string.
Proof.
  destruct (@discovery_publishes_answer Outage.sameSignatures
              (fun _ => {| Reconciler.cancelled := false;
                           Reconciler.result :=
                             Some [ {| Rpc.signature := "s2"%string |};
                                    {| Rpc.signature := "s1"%string |} ] |})
              (Reconciler.start Outage.idle)
              [ {| Rpc.signature := "s2"%string |};
                {| Rpc.signature := "s1"%string |} ])
    as (w' & Hr & Hs & _).
  - intros a b. apply sameSignatures_spec.
  - reflexivity.
  - reflexivity.
  - exists w'. split; [exact Hr | exact Hs].
Defined.

Lemma resolution_publishes_records_witness :
  exists w',
    Reconciler.runB Sample.merchant None 32 Sample.digit ["sig-native"%string]
      (fun _ => {| Reconciler.cancelled := false;
                   Reconciler.result :=
                     Some ([Some Sample.nativeTransfer],
                           [Some Sample.confirmedStatus]) |})
      (Reconciler.start Outage.idle) = Some w'
    /\ Reconciler.transactions (Reconciler.ui w') = [Sample.nativeRecord].
Proof.
  destruct (@resolution_publishes_records Sample.merchant None 32 Sample.digit
              ["sig-native"%string]
              (fun _ => {| Reconciler.cancelled := false;
                           Reconciler.result :=
                             Some ([Some Sample.nativeTransfer],
                                   [Some Sample.confirmedStatus]) |})
              (Reconciler.start Outage.idle)
              ([Some Sample.nativeTransfer], [Some Sample.confirmedStatus])
              [Sample.nativeRecord])
    as (w' & Hr & Ht & _).
  - reflexivity.
  - reflexivity.
  - vm_compute. reflexivity.
  - exists w'. split; [exact Hr | exact Ht].
Defined.

Lemma resolution_poisoned_batch_witness :
  Reconciler.reconcile Sample.merchant None 32 Sample.digit
    ["sig-native"; "sig-bad"]%string
    [Some Sample.nativeTransfer; Some Sample.malformed]
    [Some Sample.confirmedStatus; Some Sample.confirmedStatus] = None
  /\ exists w',
      Reconciler.runB Sample.merchant None 32 Sample.digit
        ["sig-native"; "sig-bad"]%string
        (fun _ => {| Reconciler.cancelled := false;
                     Reconciler.result :=
                       Some ([Some Sample.nativeTransfer;
                              Some Sample.malformed],
                             [Some Sample.confirmedStatus;
                              Some Sample.confirmedStatus]) |})
        (Reconciler.start Outage.idle) = Some w'
      /\ Reconciler.transactions (Reconciler.ui w') = []
      /\ Reconciler.currentDelay w' = 2000.
Proof.
  split; [vm_compute; reflexivity|].
  destruct (@resolution_poisoned_batch Sample.merchant None 32 Sample.digit
              ["sig-native"; "sig-bad"]%string
              (fun _ => {| Reconciler.cancelled := false;
                           Reconciler.result :=
                             Some ([Some Sample.nativeTransfer;
                                    Some Sample.malformed],
                                   [Some Sample.confirmedStatus;
                                    Some Sample.confirmedStatus]) |})
              (Reconciler.start Outage.idle)
              ([Some Sample.nativeTransfer; Some Sample.malformed],
               [Some Sample.confirmedStatus; Some Sample.confirmedStatus]))
    as (w' & Hr & Ht & _ & _ & Hd & _).
  - reflexivity.
  - reflexivity.
  - vm_compute. reflexivity.
  - exists w'. split; [exact Hr|]. split; [exact Ht | exact Hd].
Defined.

Lemma not_found_polls_change_nothing_witness :
  Session.inflight
    (Session.steps [Session.SetAmount (Some Checkout.price);
                    Session.Generate Checkout.key] Session.mounted) = []
  /\ Session.steps (Measure.notFoundRounds 5)
       (Session.steps [Session.SetAmount (Some Checkout.price);
                       Session.Generate Checkout.key] Session.mounted)
     = Session.steps [Session.SetAmount (Some Checkout.price);
                      Session.Generate Checkout.key] Session.mounted.
Proof.
  split; [reflexivity|].
  apply (@not_found_polls_change_nothing
           [Session.SetAmount (Some Checkout.price);
            Session.Generate Checkout.key] 5).
  reflexivity.
Defined.

Lemma initialMemecoins_stocked : Measure.stocked Selection.initialMemecoins.
Proof.
  split.
  - cbn. repeat split; reflexivity.
  - repeat constructor; cbn; lia.
Qed.

Lemma clicks_keep_selection_witness :
  exists ms',
    Selection.pressAll
      [Selection.Plus 0; Selection.Plus 2; Selection.Plus 2;
       Selection.Minus 1; Selection.Minus 2]
      Selection.initialMemecoins = Some ms'
    /\ map Selection.quantity ms' = [1; 0; 1].
Proof.
  destruct (@clicks_keep_selection
              [Selection.Plus 0; Selection.Plus 2; Selection.Plus 2;
               Selection.Minus 1; Selection.Minus 2]
              Selection.initialMemecoins initialMemecoins_stocked)
    as (ms' & Hp & _).
  - repeat (apply Forall_cons; [cbn; tauto|]). apply Forall_nil.
  - exists ms'. split; [exact Hp|].
    cbn in Hp. injection Hp as <-. reflexivity.
Defined.

Lemma plus_then_minus_witness :
  Selection.pressAll [Selection.Plus 1; Selection.Minus 1]
                     Selection.initialMemecoins
  = Some Selection.initialMemecoins.
Proof.
  apply (@plus_then_minus 1 Selection.initialMemecoins
           initialMemecoins_stocked).
  cbn. auto.
Defined.
